(** * View-to-camera stage of the renderer: model and verification

    Sources covered:
    - [renderer/scene/PerspectiveNormalizeMatrix.js]  ([build])
    - the pipeline stage [View2Camera]  ([view2cameraModel],
      [view2cameraPosition], [view2cameraNestedModel])

    JavaScript numbers are IEEE 754 binary64 values; they are modelled by
    Rocq's primitive floats, whose operations are the same correctly
    rounded operations.  The linear algebra is written once over an
    arithmetic interface, so that the same text can also be read in exact
    rational arithmetic.  Objects live in a heap of references, because
    the stage builds new objects that share parts of its input. *)

From Stdlib Require Import Floats QArith Qcanon Field.
From stdpp Require Import gmap strings list fin_maps.

Set Default Proof Using "Type".
Set Warnings "-register-all".

(** * Part I: the program *)

(** ** Arithmetic interface *)

Class Arith (A : Type) : Type := MkArith {
  lit0 : A;
  lit1 : A;
  lit2 : A;
  aplus : A → A → A;
  aminus : A → A → A;
  atimes : A → A → A;
  adivide : A → A → A
}.

Declare Scope arith_scope.
Delimit Scope arith_scope with ar.
Infix "⊕" := aplus (at level 50, left associativity) : arith_scope.
Infix "⊖" := aminus (at level 50, left associativity) : arith_scope.
Infix "⊗" := atimes (at level 40, left associativity) : arith_scope.
Infix "⊘" := adivide (at level 40, left associativity) : arith_scope.

(** JavaScript's [number]: binary64 with round-to-nearest-even. *)
#[export] Instance float_arith : Arith float :=
  MkArith float 0%float 1%float 2%float
          PrimFloat.add PrimFloat.sub PrimFloat.mul PrimFloat.div.

(** Exact arithmetic on canonical rationals. *)
#[export] Instance Qc_arith : Arith Qc :=
  MkArith Qc 0%Qc 1%Qc (1 + 1)%Qc Qcplus Qcminus Qcmult Qcdiv.

(** ** Vector, Vertex, Matrix *)

Section LinearAlgebra.
Context {A : Type} `{Arith A}.
Local Open Scope arith_scope.

(** [new Vector(x, y, z, w)] *)
Record Vector : Type := mkVector { vec_x : A; vec_y : A; vec_z : A; vec_w : A }.

(** [new Vertex(x, y, z)] *)
Record Vertex : Type := mkVertex { vtx_x : A; vtx_y : A; vtx_z : A }.

(** A matrix is stored as its four columns. *)
Record Matrix : Type := mkMatrix { v1 : Vector; v2 : Vector; v3 : Vector; v4 : Vector }.

(** Modelled from the spec: [Matrix.buildFromColumns] is not in the
    sources at hand; the spec says a Matrix is "built from four column
    vectors". *)
Definition buildFromColumns (c1 c2 c3 c4 : Vector) : Matrix :=
  mkMatrix c1 c2 c3 c4.

(** The four rows of a matrix, each as a Vector. *)
Definition row1 (m : Matrix) : Vector :=
  mkVector (vec_x (v1 m)) (vec_x (v2 m)) (vec_x (v3 m)) (vec_x (v4 m)).
Definition row2 (m : Matrix) : Vector :=
  mkVector (vec_y (v1 m)) (vec_y (v2 m)) (vec_y (v3 m)) (vec_y (v4 m)).
Definition row3 (m : Matrix) : Vector :=
  mkVector (vec_z (v1 m)) (vec_z (v2 m)) (vec_z (v3 m)) (vec_z (v4 m)).
Definition row4 (m : Matrix) : Vector :=
  mkVector (vec_w (v1 m)) (vec_w (v2 m)) (vec_w (v3 m)) (vec_w (v4 m)).

(** Row-dot-column product of two 4-vectors; the four products are added
    from left to right. *)
Definition dot (r c : Vector) : A :=
  vec_x r ⊗ vec_x c ⊕ vec_y r ⊗ vec_y c ⊕ vec_z r ⊗ vec_z c ⊕ vec_w r ⊗ vec_w c.

(** Modelled from the spec: [Matrix.timesVector] is not in the sources
    at hand; the spec gives it "standard row-dot-column semantics". *)
Definition timesVector (m : Matrix) (v : Vector) : Vector :=
  mkVector (dot (row1 m) v) (dot (row2 m) v) (dot (row3 m) v) (dot (row4 m) v).

(** Modelled from the spec: [Matrix.timesMatrix] is not in the sources
    at hand; [m.timesMatrix(n)] is the product [m × n] with "standard
    row-dot-column semantics": column [j] of the product is [m] applied
    to column [j] of [n]. *)
Definition timesMatrix (m n : Matrix) : Matrix :=
  buildFromColumns (timesVector m (v1 n)) (timesVector m (v2 n))
                   (timesVector m (v3 n)) (timesVector m (v4 n)).

(** Modelled from the spec: [Matrix.timesVertex] is not in the sources
    at hand; the spec says it "returns a new Vertex equal to
    Matrix × (x, y, z, 1), with the result's w-component discarded". *)
Definition timesVertex (m : Matrix) (v : Vertex) : Vertex :=
  let p := mkVector (vtx_x v) (vtx_y v) (vtx_z v) lit1 in
  mkVertex (dot (row1 m) p) (dot (row2 m) p) (dot (row3 m) p).

(** The skew matrix [m1] of [build]. *)
Definition skewMatrix (l r b t : A) : Matrix :=
  buildFromColumns
    (mkVector lit1 lit0 lit0 lit0)
    (mkVector lit0 lit1 lit0 lit0)
    (mkVector ((r ⊕ l) ⊘ lit2) ((t ⊕ b) ⊘ lit2) lit1 lit0)
    (mkVector lit0 lit0 lit0 lit1).

(** The scale matrix [m2] of [build]. *)
Definition scaleMatrix (l r b t : A) : Matrix :=
  buildFromColumns
    (mkVector (lit2 ⊘ (r ⊖ l)) lit0 lit0 lit0)
    (mkVector lit0 (lit2 ⊘ (t ⊖ b)) lit0 lit0)
    (mkVector lit0 lit0 lit1 lit0)
    (mkVector lit0 lit0 lit0 lit1).

(** The body of [build] once its four arguments are known to be numbers:
    [m1], [m2], and [m2.timesMatrix(m1)]. *)
Definition buildNumbers (l r b t : A) : Matrix :=
  let m1 := skewMatrix l r b t in
  let m2 := scaleMatrix l r b t in
  timesMatrix m2 m1.

(** The matrix the source's header comment displays as "the matrix
    product" (with [near] taken as 1), row by row. *)
Definition closedForm (l r b t : A) : Matrix :=
  buildFromColumns
    (mkVector (lit2 ⊘ (r ⊖ l)) lit0 lit0 lit0)
    (mkVector lit0 (lit2 ⊘ (t ⊖ b)) lit0 lit0)
    (mkVector ((r ⊕ l) ⊘ (r ⊖ l)) ((t ⊕ b) ⊘ (t ⊖ b)) lit1 lit0)
    (mkVector lit0 lit0 lit0 lit1).

(** The 4×4 identity matrix. *)
Definition identityMatrix : Matrix :=
  buildFromColumns
    (mkVector lit1 lit0 lit0 lit0)
    (mkVector lit0 lit1 lit0 lit0)
    (mkVector lit0 lit0 lit1 lit0)
    (mkVector lit0 lit0 lit0 lit1).
End LinearAlgebra.

Arguments Vector A : clear implicits.
Arguments Vertex A : clear implicits.
Arguments Matrix A : clear implicits.

(** ** JavaScript values and [build] *)

Inductive JSValue : Type :=
| JSUndefined
| JSNull
| JSBoolean (b : bool)
| JSNumber (n : float)
| JSBigInt (z : Z)
| JSString (s : string)
| JSSymbol (description : string)
| JSFunction (f : positive)
| JSObject (o : positive).

(** The [typeof] operator. *)
Definition typeof (v : JSValue) : string :=
  match v with
  | JSUndefined => "undefined"
  | JSNull => "object"
  | JSBoolean _ => "boolean"
  | JSNumber _ => "number"
  | JSBigInt _ => "bigint"
  | JSString _ => "string"
  | JSSymbol _ => "symbol"
  | JSFunction _ => "function"
  | JSObject _ => "object"
  end.

(** Outcome of a call: a value, or [throw new Error(msg)]. *)
Inductive Completion (A : Type) : Type :=
| Return (a : A)
| Throw (msg : string).
Arguments Return {A} a.
Arguments Throw {A} msg.

(** [export default function build(l, r, b, t)] *)
Definition build (l r b t : JSValue) : Completion (Matrix float) :=
  if bool_decide (typeof l ≠ "number") ||
     bool_decide (typeof r ≠ "number") ||
     bool_decide (typeof b ≠ "number") ||
     bool_decide (typeof t ≠ "number")
  then Throw "L, R, B, T, and near must be numerical"
  else
    match l, r, b, t with
    | JSNumber l, JSNumber r, JSNumber b, JSNumber t =>
        Return (buildNumbers l r b t)
    | _, _, _, _ =>
        (* not reached: all four have type number here *)
        Throw "unreachable"
    end.

(** A bound is a finite numeric value: a number that is neither NaN nor
    an infinity. *)
Definition isFiniteNumber (v : JSValue) : bool :=
  match v with
  | JSNumber n => PrimFloat.is_finite n
  | _ => false
  end.

Definition throws {A : Type} (c : Completion A) : Prop :=
  ∃ msg, c = Throw msg.

(** ** Two statements about [build] that are put to the test *)

(** An entry of the matrix a call returned ([NaN] if it threw). *)
Definition entryOf (entry : Matrix float → float)
    (c : Completion (Matrix float)) : float :=
  match c with
  | Return m => entry m
  | Throw _ => nan
  end.

(** The claim that, in JavaScript's arithmetic, [build] returns the matrix
    displayed row by row in the source's header. *)
Definition buildIsClosedForm (l r b t : float) : Prop :=
  build (JSNumber l) (JSNumber r) (JSNumber b) (JSNumber t)
  = Return (closedForm l r b t).

(** The claim that [build] fails exactly when some bound is not a finite
    number. *)
Definition buildThrowsIffNotFinite (l r b t : JSValue) : Prop :=
  throws (build l r b t) ↔
  ¬ (isFiniteNumber l = true ∧ isFiniteNumber r = true ∧
     isFiniteNumber b = true ∧ isFiniteNumber t = true).

(** ** The heap of objects *)

(** References to objects. *)
Abbreviation loc := positive (only parsing).

(** An array element: a Vertex (an immutable value) or a reference to a
    Model or Position object. *)
Inductive Elem : Type :=
| EVertex (v : Vertex float)
| ERef (l : loc).

(** The fields of a Model object.  The primitive list and the colour list
    are references that this stage only passes on. *)
Record Model : Type := mkModel {
  vertexList : loc;
  primitiveList : loc;
  colorList : loc;
  matrix : Matrix float;
  nestedModels : loc;
  name : string;
  visible : bool
}.

(** The fields of a Position object. *)
Record Position : Type := mkPosition {
  model : loc;
  pos_name : string;
  nestedPositions : loc
}.

Inductive Obj : Type :=
| OArray (elems : list Elem)
| OModel (m : Model)
| OPosition (p : Position).

Abbreviation heap := (gmap positive Obj) (only parsing).

(** Modelled from the spec: the Camera class is not in the sources at
    hand; the spec gives it a [perspective] flag, the four view-volume
    bounds and a near distance, and "a single derived NormalizeMatrix
    (computed once, cached)". *)
Record Camera : Type := mkCamera {
  perspective : bool;
  cam_left : float;
  cam_right : float;
  cam_bottom : float;
  cam_top : float;
  cam_n : float;
  normalizeMatrix : Matrix float
}.

(** Modelled from the spec: [camera.getNormalizeMatrix()] returns the
    cached matrix. *)
Definition getNormalizeMatrix (camera : Camera) : Matrix float :=
  normalizeMatrix camera.

(** ** A monad for code that reads and writes the heap *)

(** How a computation ends: with a value, with a run-time type error (a
    JavaScript [TypeError]: a reference that is not what the code takes
    it for), or with the step budget of the model used up. *)
Inductive Outcome (A : Type) : Type :=
| Ok (a : A)
| TypeError
| OutOfFuel.
Arguments Ok {A} a.
Arguments TypeError {A}.
Arguments OutOfFuel {A}.

(** The heap is threaded through every step and survives a failure. *)
Definition M (A : Type) : Type := heap → Outcome A * heap.

Definition ret {A : Type} (a : A) : M A := λ h, (Ok a, h).

Definition bind {A B : Type} (c : M A) (k : A → M B) : M B :=
  λ h, match c h with
       | (Ok a, h') => k a h'
       | (TypeError, h') => (TypeError, h')
       | (OutOfFuel, h') => (OutOfFuel, h')
       end.

#[export] Instance M_ret : MRet M := @ret.
#[export] Instance M_bind : MBind M := λ A B k c, bind c k.

Definition typeError {A : Type} : M A := λ h, (TypeError, h).
Definition outOfFuel {A : Type} : M A := λ h, (OutOfFuel, h).

(** [new ...]: the object is stored at a reference not in use. *)
Definition alloc (o : Obj) : M loc :=
  λ h, let l := fresh (dom h) in (Ok l, <[l := o]> h).

Definition load (l : loc) : M Obj :=
  λ h, match h !! l with
       | Some o => (Ok o, h)
       | None => (TypeError, h)
       end.

Definition store (l : loc) (o : Obj) : M unit :=
  λ h, (Ok tt, <[l := o]> h).

Definition loadArray (l : loc) : M (list Elem) :=
  o ← load l;
  match o with OArray es => ret es | _ => typeError end.

Definition loadModel (l : loc) : M Model :=
  o ← load l;
  match o with OModel m => ret m | _ => typeError end.

Definition loadPosition (l : loc) : M Position :=
  o ← load l;
  match o with OPosition p => ret p | _ => typeError end.

Definition asVertex (e : Elem) : M (Vertex float) :=
  match e with EVertex v => ret v | ERef _ => typeError end.

Definition asRef (e : Elem) : M loc :=
  match e with ERef l => ret l | EVertex _ => typeError end.

(** [new Array()] *)
Definition newArray : M loc := alloc (OArray []).

(** [arr.push(e)] *)
Definition push (arr : loc) (e : Elem) : M unit :=
  es ← loadArray arr;
  store arr (OArray (es ++ [e])).

(** [for (const e of arr) body(e)], from index [i] on.  The array is read
    anew at every step, as the array iterator does; the loop ends when the
    index reaches the array's current length. *)
Fixpoint forOfFrom (fuel : nat) (arr : loc) (i : nat) (body : Elem → M unit) : M unit :=
  match fuel with
  | O => outOfFuel
  | S fuel' =>
      es ← loadArray arr;
      match es !! i with
      | None => ret tt
      | Some e => body e ;; forOfFrom fuel' arr (S i) body
      end
  end.

Definition forOf (fuel : nat) (arr : loc) (body : Elem → M unit) : M unit :=
  forOfFrom fuel arr 0 body.

(** Modelled from the spec: the Model constructor is not in the sources at
    hand; [new Model(vList, pList, cList, matrix, nestedModels, name, vis)]
    makes a Model object holding the seven arguments as given. *)
Definition newModel (vList pList cList : loc) (mat : Matrix float)
    (nested : loc) (nm : string) (vis : bool) : M loc :=
  alloc (OModel (mkModel vList pList cList mat nested nm vis)).

(** Modelled from the spec: [Position.buildFromModelName] is not in the
    sources at hand; it makes a Position with the given model reference
    and name and a new, empty list of nested positions. *)
Definition buildFromModelName (mdl : loc) (nm : string) : M loc :=
  nested ← newArray;
  alloc (OPosition (mkPosition mdl nm nested)).

(** [pos.model = m] *)
Definition setModel (pos : loc) (m : loc) : M unit :=
  p ← loadPosition pos;
  store pos (OPosition (mkPosition m (pos_name p) (nestedPositions p))).

(** Modelled from the spec: [Position.addNestedPosition] is not in the
    sources at hand; it appends to the position's nested-position list. *)
Definition addNestedPosition (pos : loc) (p : loc) : M unit :=
  q ← loadPosition pos;
  push (nestedPositions q) (ERef p).

(** ** The stage *)

(** [export function view2cameraModel(model, camera)].  The budget is for
    the loop over the vertex list. *)
Definition view2cameraModel (fuel : nat) (model : loc) (camera : Camera) : M loc :=
  let normalizeMatrix := getNormalizeMatrix camera in
  newVertexList ← newArray;
  m ← loadModel model;
  forOf fuel (vertexList m) (λ e,
    v ← asVertex e;
    push newVertexList (EVertex (timesVertex normalizeMatrix v))) ;;
  m ← loadModel model;
  newModel newVertexList (primitiveList m) (colorList m) (matrix m)
           (nestedModels m) (name m) (visible m).

(** [function view2cameraNestedModel(model, camera)].  The calls to the
    logger are left out: they return nothing and write no object. *)
Fixpoint view2cameraNestedModel (fuel : nat) (model : loc) (camera : Camera) : M loc :=
  match fuel with
  | O => outOfFuel
  | S fuel' =>
      mod2 ← view2cameraModel fuel' model camera;
      newNestedModelList ← newArray;
      m ← loadModel model;
      forOf fuel' (nestedModels m) (λ e,
        m ← asRef e;
        r ← view2cameraNestedModel fuel' m camera;
        push newNestedModelList (ERef r)) ;;
      m2 ← loadModel mod2;
      newModel (vertexList m2) (primitiveList m2) (colorList m2) (matrix m2)
               newNestedModelList (name m2) (visible m2)
  end.

(** [export function view2cameraPosition(position, camera)].  The calls to
    the logger are left out; the [else] branch of the source only logs. *)
Fixpoint view2cameraPosition (fuel : nat) (position : loc) (camera : Camera) : M loc :=
  match fuel with
  | O => outOfFuel
  | S fuel' =>
      p ← loadPosition position;
      pos2 ← buildFromModelName (model p) (pos_name p);
      pm ← loadModel (model p);
      (if visible pm
       then r ← view2cameraNestedModel fuel' (model p) camera; setModel pos2 r
       else ret tt) ;;
      p ← loadPosition position;
      forOf fuel' (nestedPositions p) (λ e,
        pos ← asRef e;
        r ← view2cameraPosition fuel' pos camera;
        addNestedPosition pos2 r) ;;
      ret pos2
  end.

(** * Part II: trees, assertions and an example scene *)

(** ** Trees held in the heap *)

(** A Model tree read off the heap: the vertices, the two references that
    are passed on, the local matrix, the nested models, the name and the
    visible flag. *)
Inductive ModelTree : Type :=
| ModelNode (vs : list (Vertex float)) (prim col : loc) (mat : Matrix float)
    (nested : list ModelTree) (nm : string) (vis : bool).

(** A Position tree read off the heap: the name, the model and the nested
    positions. *)
Inductive PositionTree : Type :=
| PositionNode (nm : string) (m : ModelTree) (nested : list PositionTree).

Definition modelVertices (t : ModelTree) : list (Vertex float) :=
  match t with ModelNode vs _ _ _ _ _ _ => vs end.
Definition modelNested (t : ModelTree) : list ModelTree :=
  match t with ModelNode _ _ _ _ nested _ _ => nested end.
Definition modelName (t : ModelTree) : string :=
  match t with ModelNode _ _ _ _ _ nm _ => nm end.
Definition modelVisible (t : ModelTree) : bool :=
  match t with ModelNode _ _ _ _ _ _ vis => vis end.
Definition positionName (t : PositionTree) : string :=
  match t with PositionNode nm _ _ => nm end.
Definition positionModel (t : PositionTree) : ModelTree :=
  match t with PositionNode _ m _ => m end.
Definition positionNested (t : PositionTree) : list PositionTree :=
  match t with PositionNode _ _ nested => nested end.

(** Induction on trees, with the hypothesis for every nested tree. *)
Fixpoint ModelTree_nested_ind (P : ModelTree → Prop)
    (step : ∀ vs prim col mat nested nm vis,
       Forall P nested → P (ModelNode vs prim col mat nested nm vis))
    (t : ModelTree) : P t :=
  match t with
  | ModelNode vs prim col mat nested nm vis =>
      step vs prim col mat nested nm vis
        ((fix all (ts : list ModelTree) : Forall P ts :=
            match ts with
            | [] => @List.Forall_nil _ P
            | t' :: ts' =>
                @List.Forall_cons _ P t' ts' (ModelTree_nested_ind P step t') (all ts')
            end) nested)
  end.

Fixpoint PositionTree_nested_ind (P : PositionTree → Prop)
    (step : ∀ nm m nested, Forall P nested → P (PositionNode nm m nested))
    (t : PositionTree) : P t :=
  match t with
  | PositionNode nm m nested =>
      step nm m nested
        ((fix all (ts : list PositionTree) : Forall P ts :=
            match ts with
            | [] => @List.Forall_nil _ P
            | t' :: ts' =>
                @List.Forall_cons _ P t' ts' (PositionTree_nested_ind P step t') (all ts')
            end) nested)
  end.

(** The heap [h] holds the Model tree [t] at reference [l]. *)
Inductive is_model (h : heap) : loc → ModelTree → Prop :=
| is_model_node l vl nl ls vs prim col mat nested nm vis :
    h !! l = Some (OModel (mkModel vl prim col mat nl nm vis)) →
    h !! vl = Some (OArray (EVertex <$> vs)) →
    is_Some (h !! prim) →
    is_Some (h !! col) →
    h !! nl = Some (OArray (ERef <$> ls)) →
    Forall2 (is_model h) ls nested →
    is_model h l (ModelNode vs prim col mat nested nm vis).

(** The heap [h] holds the Position tree [t] at reference [l]. *)
Inductive is_position (h : heap) : loc → PositionTree → Prop :=
| is_position_node l ml nl ls nm m nested :
    h !! l = Some (OPosition (mkPosition ml nm nl)) →
    is_model h ml m →
    h !! nl = Some (OArray (ERef <$> ls)) →
    Forall2 (is_position h) ls nested →
    is_position h l (PositionNode nm m nested).

(** What the stage computes, on trees. *)
Fixpoint transformModelTree (mat : Matrix float) (t : ModelTree) : ModelTree :=
  match t with
  | ModelNode vs prim col lmat nested nm vis =>
      ModelNode (map (timesVertex mat) vs) prim col lmat
                (map (transformModelTree mat) nested) nm vis
  end.

Fixpoint transformPositionTree (mat : Matrix float) (t : PositionTree) : PositionTree :=
  match t with
  | PositionNode nm m nested =>
      PositionNode nm
        (if modelVisible m then transformModelTree mat m else m)
        (map (transformPositionTree mat) nested)
  end.

(** Node count, names in pre-order, and shape (the nested lists with all
    else erased) of a Model tree. *)
Fixpoint modelCount (t : ModelTree) : nat :=
  match t with
  | ModelNode _ _ _ _ nested _ _ => S (sum_list (map modelCount nested))
  end.

Fixpoint modelNames (t : ModelTree) : list string :=
  match t with
  | ModelNode _ _ _ _ nested nm _ => nm :: concat (map modelNames nested)
  end.

Inductive Shape : Type :=
| ShapeNode (nested : list Shape).

Fixpoint modelShape (t : ModelTree) : Shape :=
  match t with
  | ModelNode _ _ _ _ nested _ _ => ShapeNode (map modelShape nested)
  end.

(** The same for a Position tree; its shape records the shape of the
    model held at every position as well. *)
Fixpoint positionCount (t : PositionTree) : nat :=
  match t with
  | PositionNode _ _ nested => S (sum_list (map positionCount nested))
  end.

Fixpoint positionNames (t : PositionTree) : list string :=
  match t with
  | PositionNode nm _ nested => nm :: concat (map positionNames nested)
  end.

Inductive PositionShape : Type :=
| PositionShapeNode (m : Shape) (nested : list PositionShape).

Fixpoint positionShape (t : PositionTree) : PositionShape :=
  match t with
  | PositionNode _ m nested =>
      PositionShapeNode (modelShape m) (map positionShape nested)
  end.

(** The vertex lists of a Model tree, in pre-order. *)
Fixpoint modelVertexLists (t : ModelTree) : list (list (Vertex float)) :=
  match t with
  | ModelNode vs _ _ _ nested _ _ => vs :: concat (map modelVertexLists nested)
  end.

(** A step budget that is enough for a tree: more than the length of every
    list walked and than the depth of the recursion. *)
Fixpoint modelFuel (t : ModelTree) : nat :=
  match t with
  | ModelNode vs _ _ _ nested _ _ =>
      S (S (length vs) `max` (S (length nested) `max` max_list (map modelFuel nested)))
  end.

Fixpoint positionFuel (t : PositionTree) : nat :=
  match t with
  | PositionNode _ m nested =>
      S (modelFuel m `max` (S (length nested) `max` max_list (map positionFuel nested)))
  end.

(** The names of the models held at the positions of a tree, in
    pre-order. *)
Fixpoint positionModelNames (t : PositionTree) : list string :=
  match t with
  | PositionNode _ m nested =>
      modelNames m ++ concat (map positionModelNames nested)
  end.

(** ** Assertions about heap computations *)

(** [post c h Q E]: run from [h], [c] either returns a value [a] in a heap
    [h'] with [Q a h'], or fails in a heap [h'] with [E h'].  With
    [E := λ _, False] this says that [c] returns. *)
Definition post {A : Type} (c : M A) (h : heap)
    (Q : A → heap → Prop) (E : heap → Prop) : Prop :=
  match c h with
  | (Ok a, h') => Q a h'
  | (_, h') => E h'
  end.

Definition never : heap → Prop := λ _, False.

(** [h ⊆ h'] on heaps: every reference in use in [h] holds the same object
    in [h']. *)
Definition framed (h : heap) : heap → Prop := λ h', h ⊆ h'.

(** What a call that returns a new object [r] guarantees about the heap
    [h] it started from. *)
Definition framedNew (h : heap) : loc → heap → Prop :=
  λ r h', h ⊆ h' ∧ h !! r = None.

Definition view2cameraModel_post (camera : Camera) (h : heap) (m : Model)
    (vs : list (Vertex float)) : loc → heap → Prop :=
  λ r h', ∃ vl',
    h !! vl' = None ∧
    h' !! vl' = Some (OArray (EVertex <$> map (timesVertex (getNormalizeMatrix camera)) vs)) ∧
    h' !! r = Some (OModel (mkModel vl' (primitiveList m) (colorList m) (matrix m)
                                   (nestedModels m) (name m) (visible m))).

(** The heap [base], which holds the input tree, together with the
    objects of [h'] at references that were not in use in [h]. *)
Definition footprint (base h h' : heap) : heap := base ∪ (h' ∖ h).

(** The Model at [r] has a vertex list and a nested-model list that were
    not in use in [h]. *)
Definition rebuiltModel (h : heap) : loc → heap → Prop :=
  λ r h', ∃ m2, h' !! r = Some (OModel m2) ∧
                h !! vertexList m2 = None ∧ h !! nestedModels m2 = None.

(** The Position at [r] has the name of the one at [position], a
    nested-position list that was not in use in [h], and, when the model of
    [position] is hidden, the very same model reference. *)
Definition rebuiltPosition (h : heap) (position : loc) (hidden : bool) :
    loc → heap → Prop :=
  λ r h', ∃ p p2,
    h !! position = Some (OPosition p) ∧ h' !! r = Some (OPosition p2) ∧
    pos_name p2 = pos_name p ∧ h !! nestedPositions p2 = None ∧
    (hidden = true → model p2 = model p).

(** Every object of [h] is the same object in [h'], and so is every tree. *)
Definition unchanged (h h' : heap) : Prop :=
  (∀ x o, h !! x = Some o → h' !! x = Some o) ∧
  (∀ x t, is_model h x t → is_model h' x t) ∧
  (∀ x t, is_position h x t → is_position h' x t).

(** ** A small scene *)

(** The camera whose view rectangle is [0, 2] × [0, 2]. *)
Definition exampleCamera : Camera :=
  (mkCamera true 0 2 0 2 1 (buildNumbers 0 2 0 2))%float.

Definition exampleVertex : Vertex float := (mkVertex 1 1 (-1))%float.

(** A scene: the position ["top"] holds the hidden model ["A"], which
    nests the hidden model ["B"]; its nested position ["child"] holds the
    visible model ["C"]. *)
Definition exampleHeap : heap :=
  list_to_map
    [ (1%positive, OArray [EVertex exampleVertex]);
      (2%positive, OArray []);
      (3%positive, OArray []);
      (4%positive, OArray [EVertex (mkVertex 2 0 (-1))%float; EVertex (mkVertex 0 2 (-2))%float]);
      (5%positive, OArray []);
      (6%positive, OModel (mkModel 4 2 3 identityMatrix 5 "B" false));
      (7%positive, OArray [ERef 6%positive]);
      (8%positive, OModel (mkModel 1 2 3 identityMatrix 7 "A" false));
      (9%positive, OArray []);
      (10%positive, OArray [EVertex exampleVertex]);
      (11%positive, OArray []);
      (12%positive, OModel (mkModel 10 2 3 identityMatrix 11 "C" true));
      (13%positive, OPosition (mkPosition 12 "child" 9));
      (14%positive, OArray [ERef 13%positive]);
      (15%positive, OPosition (mkPosition 8 "top" 14)) ].

Definition exampleModelB : ModelTree :=
  ModelNode [(mkVertex 2 0 (-1))%float; (mkVertex 0 2 (-2))%float] 2 3 identityMatrix [] "B" false.
Definition exampleModelA : ModelTree :=
  ModelNode [exampleVertex] 2 3 identityMatrix [exampleModelB] "A" false.
Definition exampleModelC : ModelTree :=
  ModelNode [exampleVertex] 2 3 identityMatrix [] "C" true.
Definition exampleChild : PositionTree :=
  PositionNode "child" exampleModelC [].
Definition exampleTop : PositionTree :=
  PositionNode "top" exampleModelA [exampleChild].

(** ** Objects created by a call *)

(** The postcondition of a failure, when nothing is asked of it. *)
Definition anyway : heap → Prop := λ _, True.

(** Every object of the Model tree at [l] in [h'] is at a reference that
    was not in use in [h]: the Model itself, its vertex list, its
    nested-model list, and so on for every nested model. *)
Inductive createdModel (h h' : heap) : loc → Prop :=
| createdModel_node l m vs ls :
    h !! l = None → h' !! l = Some (OModel m) →
    h !! vertexList m = None →
    h' !! vertexList m = Some (OArray (EVertex <$> vs)) →
    h !! nestedModels m = None →
    h' !! nestedModels m = Some (OArray (ERef <$> ls)) →
    Forall (createdModel h h') ls →
    createdModel h h' l.

(** Every Position of the tree at [l] in [h'], and its nested-position
    list, is at a reference that was not in use in [h]; the model of each
    Position is either a tree of such objects, or a hidden Model of the
    heap [shared]. *)
Inductive createdPosition (shared h h' : heap) : loc → Prop :=
| createdPosition_node l p ls :
    h !! l = None → h' !! l = Some (OPosition p) →
    h !! nestedPositions p = None →
    h' !! nestedPositions p = Some (OArray (ERef <$> ls)) →
    (createdModel h h' (model p) ∨
     ∃ pm, shared !! model p = Some (OModel pm) ∧ visible pm = false) →
    Forall (createdPosition shared h h') ls →
    createdPosition shared h h' l.

(** ** Vertex lists of a scene *)

(** The vertex lists of the models of a Position tree, in pre-order. *)
Fixpoint positionVertexLists (t : PositionTree) : list (list (Vertex float)) :=
  match t with
  | PositionNode _ m nested =>
      modelVertexLists m ++ concat (map positionVertexLists nested)
  end.

(** The same lists, those of the model of a position being transformed
    when the flag of that model, the root of the position's model tree,
    is set. *)
Fixpoint gatedVertexLists (mat : Matrix float) (t : PositionTree)
    : list (list (Vertex float)) :=
  match t with
  | PositionNode _ m nested =>
      (if modelVisible m
       then map (map (timesVertex mat)) (modelVertexLists m)
       else modelVertexLists m)
      ++ concat (map (gatedVertexLists mat) nested)
  end.

(** ** A second scene *)

(** The position ["P"] holds the visible model ["V"], which nests the
    hidden model ["H"]. *)
Definition exampleHeap2 : heap :=
  list_to_map
    [ (1%positive, OArray [EVertex exampleVertex]);
      (2%positive, OArray []);
      (3%positive, OArray []);
      (4%positive, OArray [EVertex (mkVertex 2 0 (-1))%float]);
      (5%positive, OArray []);
      (6%positive, OModel (mkModel 4 2 3 identityMatrix 5 "H" false));
      (7%positive, OArray [ERef 6%positive]);
      (8%positive, OModel (mkModel 1 2 3 identityMatrix 7 "V" true));
      (9%positive, OArray []);
      (10%positive, OPosition (mkPosition 8 "P" 9)) ].

Definition exampleModelH : ModelTree :=
  ModelNode [(mkVertex 2 0 (-1))%float] 2 3 identityMatrix [] "H" false.
Definition exampleModelV : ModelTree :=
  ModelNode [exampleVertex] 2 3 identityMatrix [exampleModelH] "V" true.
Definition examplePositionP : PositionTree :=
  PositionNode "P" exampleModelV [].

(** ** A scene with cycles *)


(** ** Floating-point numbers that are zero or finite *)

Definition SFfiniteOrZero (s : spec_float) : bool :=
  match s with
  | S754_zero _ | S754_finite _ _ _ => true
  | _ => false
  end.

(** [x], with [-0] read as [+0]; JavaScript's [===] does not tell the two
    zeros apart. *)
Definition positiveZero (x : float) : float :=
  if PrimFloat.is_zero x then 0%float else x.

(** * Part III: properties of [build] *)

(** [typeof v] is ["number"] exactly for the values built by [JSNumber]. *)
Lemma typeof_number (v : JSValue) :
  typeof v = "number" ↔ ∃ n, v = JSNumber n.
Proof.
  split.
  - destruct v; simpl; try discriminate. eauto.
  - intros [n ->]. reflexivity.
Qed.

(** The two ways through [build]: the guard throws, or all four arguments
    are numbers and the product is returned. *)
Lemma build_guard (l r b t : JSValue) :
  ((typeof l ≠ "number" ∨ typeof r ≠ "number" ∨
    typeof b ≠ "number" ∨ typeof t ≠ "number") ∧
   build l r b t = Throw "L, R, B, T, and near must be numerical") ∨
  (∃ l' r' b' t',
     l = JSNumber l' ∧ r = JSNumber r' ∧ b = JSNumber b' ∧ t = JSNumber t' ∧
     build l r b t = Return (buildNumbers l' r' b' t')).
Proof.
  unfold build.
  destruct (decide (typeof l = "number")) as [Hl|Hl];
    [|left; split; [by left|]; by rewrite (bool_decide_eq_true_2 _ Hl)].
  destruct (decide (typeof r = "number")) as [Hr|Hr];
    [|left; split; [by right; left|];
      by rewrite (bool_decide_eq_true_2 _ Hr), orb_true_r].
  destruct (decide (typeof b = "number")) as [Hb|Hb];
    [|left; split; [by right; right; left|];
      by rewrite (bool_decide_eq_true_2 _ Hb), orb_true_r].
  destruct (decide (typeof t = "number")) as [Ht|Ht];
    [|left; split; [by right; right; right|];
      by rewrite (bool_decide_eq_true_2 _ Ht), orb_true_r].
  right.
  apply typeof_number in Hl as [l' ->]. apply typeof_number in Hr as [r' ->].
  apply typeof_number in Hb as [b' ->]. apply typeof_number in Ht as [t' ->].
  by exists l', r', b', t'.
Qed.

Lemma build_numbers (l r b t : float) :
  build (JSNumber l) (JSNumber r) (JSNumber b) (JSNumber t)
  = Return (buildNumbers l r b t).
Proof. reflexivity. Qed.

(** Telling two float literals apart. *)
Ltac float_discriminate H :=
  match type of H with
  | ?a = _ =>
      apply (f_equal (PrimFloat.Leibniz.eqb a)) in H;
      vm_compute in H; discriminate H
  end.

Section ExactArithmetic.
Local Open Scope Qc_scope.

Lemma Qc_scale_skew_x (l r : Qc) :
  r ≠ l → (1 + 1) / (r - l) * ((r + l) / (1 + 1)) = (r + l) / (r - l).
Proof.
  intros Hne. field. split.
  - intros Hz. apply Hne. rewrite <- (Qcplus_0_r l), <- Hz. ring.
  - discriminate.
Qed.

(** In exact arithmetic and for non-degenerate bounds, the product
    computed by [build] is the closed form of the source's header. *)
Lemma buildNumbers_exact (l r b t : Qc) :
  r ≠ l → t ≠ b → buildNumbers l r b t = closedForm l r b t.
Proof.
  intros Hx Hy.
  unfold buildNumbers, closedForm, timesMatrix, timesVector, buildFromColumns,
    skewMatrix, scaleMatrix, dot, row1, row2, row3, row4; simpl.
  f_equal; f_equal; try ring.
  - rewrite <- (Qc_scale_skew_x l r Hx). ring.
  - rewrite <- (Qc_scale_skew_x b t Hy). ring.
Qed.
End ExactArithmetic.

(** ** Binary64 arithmetic with zeros and one *)

Lemma Prim2SF_finite (x : float) :
  PrimFloat.is_finite x = true → SFfiniteOrZero (Prim2SF x) = true.
Proof.
  unfold PrimFloat.is_finite, Prim2SF. intros Hfin.
  apply negb_true_iff, orb_false_iff in Hfin as [Hnan Hinf].
  rewrite Hnan, Hinf. destruct (is_zero x); [done|].
  destruct (Z.frexp x) as [r e].
  destruct (shr_fexp _ _ _ _ _) as [shr e'].
  by destruct (shr_m shr).
Qed.

(** A mantissa that is canonical at its exponent is not shifted when it
    is rounded. *)
Lemma shr_fexp_canonical (m : positive) (e : Z) :
  canonical_mantissa prec emax m e = true →
  shr_fexp prec emax (Zpos m) e loc_Exact
  = ({| shr_m := Zpos m; shr_r := false; shr_s := false |}, e).
Proof.
  intros Hc. apply Z.eqb_eq in Hc.
  unfold shr_fexp. cbn [Zdigits2]. rewrite Hc, Z.sub_diag. reflexivity.
Qed.

Lemma shr_fexp_times_one (m : positive) (e : Z) :
  canonical_mantissa prec emax m e = true →
  shr_fexp prec emax (Zpos (m * 4503599627370496)) (e + -52) loc_Exact
  = ({| shr_m := Zpos m; shr_r := false; shr_s := false |}, e).
Proof.
  intros Hc. apply Z.eqb_eq in Hc.
  rewrite Pos.mul_comm. cbv [Pos.mul].
  unfold shr_fexp. cbn [Zdigits2 digits2_pos].
  match goal with
  | |- context [fexp _ _ ?a] =>
      replace a with (Zpos (digits2_pos m) + e)%Z by lia
  end.
  rewrite Hc.
  replace (e - (e + -52))%Z with 52%Z by lia.
  cbv [shr SpecFloat.iter_pos shr_1 shr_record_of_loc orb].
  f_equal. lia.
Qed.

Lemma binary_round_aux_times_one (s : bool) (m : positive) (e : Z) :
  bounded prec emax m e = true →
  binary_round_aux prec emax s (Zpos (m * 4503599627370496)) (e + -52) loc_Exact
  = S754_finite s m e.
Proof.
  intros Hb. apply andb_prop in Hb as [Hc He].
  unfold binary_round_aux. rewrite (shr_fexp_times_one m e Hc).
  cbn [shr_m loc_of_shr_record round_nearest_even].
  rewrite (shr_fexp_canonical m e Hc). cbn [shr_m]. by rewrite He.
Qed.

(** [x * 1] is [x], for every binary64 value [x]. *)
Lemma float_mul_1_r (x : float) : (x * 1)%float = x.
Proof.
  transitivity (SF2Prim (Prim2SF x)); [|apply SF2Prim_Prim2SF].
  rewrite <- (SF2Prim_Prim2SF (x * 1)), mul_spec. f_equal.
  change (Prim2SF 1) with (S754_finite false 4503599627370496 (-52)).
  pose proof (Prim2SF_valid x) as Hv.
  destruct (Prim2SF x) as [[]|[]| |s m e]; try reflexivity.
  unfold SF64mul, SFmul. rewrite xorb_false_r.
  by apply binary_round_aux_times_one.
Qed.

(** [x * 0] and [0 * x] are zeros, for every finite [x]. *)
Lemma float_mul_0_r (x : float) :
  PrimFloat.is_finite x = true → (x * 0 = 0 ∨ x * 0 = neg_zero)%float.
Proof.
  intros Hfin%Prim2SF_finite.
  rewrite <- (SF2Prim_Prim2SF (x * 0)), mul_spec.
  change (Prim2SF 0) with (S754_zero false).
  destruct (Prim2SF x) as [[]| | |[] m e]; try done; simpl; auto.
Qed.

Lemma float_mul_0_l (x : float) :
  PrimFloat.is_finite x = true → (0 * x = 0 ∨ 0 * x = neg_zero)%float.
Proof.
  intros Hfin%Prim2SF_finite.
  rewrite <- (SF2Prim_Prim2SF (0 * x)), mul_spec.
  change (Prim2SF 0) with (S754_zero false).
  destruct (Prim2SF x) as [[]| | |[] m e]; try done; simpl; auto.
Qed.

(** Adding [-0] changes nothing. *)
Lemma float_add_neg_zero_r (x : float) : (x + neg_zero)%float = x.
Proof.
  transitivity (SF2Prim (Prim2SF x)); [|apply SF2Prim_Prim2SF].
  rewrite <- (SF2Prim_Prim2SF (x + neg_zero)), add_spec. f_equal.
  change (Prim2SF neg_zero) with (S754_zero true).
  by destruct (Prim2SF x) as [[]|[]| |].
Qed.

Lemma float_add_neg_zero_l (x : float) : (neg_zero + x)%float = x.
Proof.
  transitivity (SF2Prim (Prim2SF x)); [|apply SF2Prim_Prim2SF].
  rewrite <- (SF2Prim_Prim2SF (neg_zero + x)), add_spec. f_equal.
  change (Prim2SF neg_zero) with (S754_zero true).
  by destruct (Prim2SF x) as [[]|[]| |].
Qed.

Lemma is_zero_Prim2SF (x : float) :
  PrimFloat.is_zero x = match Prim2SF x with S754_zero _ => true | _ => false end.
Proof.
  unfold PrimFloat.is_zero. rewrite FloatAxioms.eqb_spec.
  change (Prim2SF 0) with (S754_zero false).
  by destruct (Prim2SF x) as [[]|[]| |[] m e].
Qed.

(** Adding [+0] turns [-0] into [+0] and changes nothing else. *)
Lemma float_add_0_r (x : float) : (x + 0)%float = positiveZero x.
Proof.
  unfold positiveZero. rewrite is_zero_Prim2SF.
  rewrite <- (SF2Prim_Prim2SF (x + 0)), add_spec.
  change (Prim2SF 0) with (S754_zero false).
  destruct (Prim2SF x) as [[]|[]| |s m e] eqn:Hx;
    try reflexivity; cbv [SF64add SFadd]; rewrite <- Hx; apply SF2Prim_Prim2SF.
Qed.

Lemma float_add_0_l (x : float) : (0 + x)%float = positiveZero x.
Proof.
  unfold positiveZero. rewrite is_zero_Prim2SF.
  rewrite <- (SF2Prim_Prim2SF (0 + x)), add_spec.
  change (Prim2SF 0) with (S754_zero false).
  destruct (Prim2SF x) as [[]|[]| |s m e] eqn:Hx;
    try reflexivity; cbv [SF64add SFadd]; rewrite <- Hx; apply SF2Prim_Prim2SF.
Qed.

Lemma positiveZero_idemp (x : float) :
  positiveZero (positiveZero x) = positiveZero x.
Proof.
  unfold positiveZero. destruct (PrimFloat.is_zero x) eqn:Hz; [reflexivity|].
  by rewrite Hz.
Qed.

(** With [r = l] the scale entry [2/(r-l)] is [Infinity], and the zero
    entries of the first row of the product are [Infinity * 0 = NaN]. *)
Lemma build_degenerate_bounds_not_closed_form :
  ¬ buildIsClosedForm 1 1 (-1) 1 ∧
  row1 (buildNumbers 1 1 (-1) 1)%float = mkVector infinity nan infinity nan ∧
  row1 (closedForm 1 1 (-1) 1)%float = mkVector infinity 0%float infinity 0%float.
Proof.
  split_and!; [|reflexivity|reflexivity].
  unfold buildIsClosedForm. rewrite build_numbers. intros H.
  apply (f_equal (entryOf (λ m, vec_x (v2 m)))) in H.
  vm_compute in H. float_discriminate H.
Qed.

(** With bounds that are not degenerate the two can still differ, by
    rounding: [(2/5) * (3/2)] is not [3/5] in binary64. *)
Lemma build_rounding_not_closed_form :
  ¬ buildIsClosedForm (-1) 4 (-1) 1 ∧
  PrimFloat.ltb (vec_x (v3 (closedForm (-1) 4 (-1) 1)%float))
                (vec_x (v3 (buildNumbers (-1) 4 (-1) 1)%float)) = true.
Proof.
  split; [|reflexivity].
  unfold buildIsClosedForm. rewrite build_numbers. intros H.
  apply (f_equal (entryOf (λ m, vec_x (v3 m)))) in H.
  vm_compute in H. float_discriminate H.
Qed.

(** The order of the product matters. *)
Lemma scale_skew_order_matters :
  v3 (timesMatrix (scaleMatrix 0 4 0 4) (skewMatrix 0 4 0 4))%float
  = mkVector 1%float 1%float 1%float 0%float ∧
  v3 (timesMatrix (skewMatrix 0 4 0 4) (scaleMatrix 0 4 0 4))%float
  = mkVector 2%float 2%float 1%float 0%float.
Proof. split; reflexivity. Qed.

(** Finite bounds that are not degenerate can still overflow: with
    [l = 2^1023] and [r = 1.5 * 2^1023] the skew term [(r+l)/2] is
    [Infinity], and the third and fourth rows of the product have
    [0 * Infinity = NaN] in their third entry. *)
Lemma build_overflowing_skew_rows :
  (PrimFloat.is_finite 0x1p1023 = true ∧ PrimFloat.is_finite 0x1.8p1023 = true ∧
   PrimFloat.is_finite (2 / (0x1.8p1023 - 0x1p1023)) = true ∧
   (0x1.8p1023 + 0x1p1023) / 2 = infinity)%float ∧
  row3 (buildNumbers 0x1p1023 0x1.8p1023 (-1) 1)%float
  = mkVector 0%float 0%float nan 0%float ∧
  row4 (buildNumbers 0x1p1023 0x1.8p1023 (-1) 1)%float
  = mkVector 0%float 0%float nan 1%float.
Proof. split_and!; reflexivity. Qed.

(** The rows of the product in binary64 arithmetic, when the two scale
    terms and the two skew terms are finite. *)
Lemma buildNumbers_binary64_rows (l r b t : float) :
  PrimFloat.is_finite (2 / (r - l)) = true →
  PrimFloat.is_finite (2 / (t - b)) = true →
  PrimFloat.is_finite ((r + l) / 2) = true →
  PrimFloat.is_finite ((t + b) / 2) = true →
  (row1 (buildNumbers l r b t)
   = mkVector (positiveZero (2 / (r - l))) 0
              (positiveZero (2 / (r - l) * ((r + l) / 2))) 0 ∧
   row2 (buildNumbers l r b t)
   = mkVector 0 (positiveZero (2 / (t - b)))
              (positiveZero (2 / (t - b) * ((t + b) / 2))) 0 ∧
   row3 (buildNumbers l r b t) = mkVector 0 0 1 0 ∧
   row4 (buildNumbers l r b t) = mkVector 0 0 0 1)%float.
Proof.
  intros Hsx Hsy Hkx Hky.
  unfold buildNumbers, timesMatrix, timesVector, buildFromColumns,
    skewMatrix, scaleMatrix, dot, row1, row2, row3, row4; simpl.
  change (0 * 0)%float with 0%float. change (0 * 1)%float with 0%float.
  change (1 * 0)%float with 0%float. change (1 * 1)%float with 1%float.
  rewrite !float_mul_1_r.
  destruct (float_mul_0_r _ Hsx) as [-> | ->];
    destruct (float_mul_0_r _ Hsy) as [-> | ->];
    destruct (float_mul_0_l _ Hkx) as [-> | ->];
    destruct (float_mul_0_l _ Hky) as [-> | ->];
    rewrite ?float_add_neg_zero_r, ?float_add_neg_zero_l,
      ?float_add_0_r, ?float_add_0_l, ?positiveZero_idemp;
    split_and!; reflexivity.
Qed.

(** C1 (amended).  For all numbers [l r b t], [build] returns the product
    scale × skew, in that order, of the skew matrix (the identity but for
    its third column [((r+l)/2, (t+b)/2, 1, 0)]) and the scale matrix
    (diagonal [2/(r-l), 2/(t-b), 1, 1]), every entry being computed in
    binary64 arithmetic.  When the scale terms [2/(r-l)], [2/(t-b)] and
    the skew terms [(r+l)/2], [(t+b)/2] are finite in that arithmetic, the
    matrix returned has the rows [(2/(r-l), 0, (2/(r-l))*((r+l)/2), 0)],
    [(0, 2/(t-b), (2/(t-b))*((t+b)/2), 0)], [(0, 0, 1, 0)] and
    [(0, 0, 0, 1)], each entry being the binary64 value, with [+0] where
    that value is [-0].  In exact arithmetic, and when [r ≠ l] and
    [t ≠ b], the two products are [(r+l)/(r-l)] and [(t+b)/(t-b)], and the
    product has the rows [(2/(r-l), 0, (r+l)/(r-l), 0)],
    [(0, 2/(t-b), (t+b)/(t-b), 0)], [(0, 0, 1, 0)] and [(0, 0, 0, 1)]. *)
Theorem build_scale_times_skew :
  (∀ l r b t : float,
     build (JSNumber l) (JSNumber r) (JSNumber b) (JSNumber t)
     = Return (timesMatrix (scaleMatrix l r b t) (skewMatrix l r b t)) ∧
     skewMatrix l r b t
     = buildFromColumns
         (mkVector 1 0 0 0) (mkVector 0 1 0 0)
         (mkVector ((r + l) / 2) ((t + b) / 2) 1 0)
         (mkVector 0 0 0 1) ∧
     scaleMatrix l r b t
     = buildFromColumns
         (mkVector (2 / (r - l)) 0 0 0) (mkVector 0 (2 / (t - b)) 0 0)
         (mkVector 0 0 1 0) (mkVector 0 0 0 1))%float ∧
  (∀ l r b t : float,
     PrimFloat.is_finite (2 / (r - l)) = true →
     PrimFloat.is_finite (2 / (t - b)) = true →
     PrimFloat.is_finite ((r + l) / 2) = true →
     PrimFloat.is_finite ((t + b) / 2) = true →
     ∃ m : Matrix float,
       build (JSNumber l) (JSNumber r) (JSNumber b) (JSNumber t) = Return m ∧
       m = timesMatrix (scaleMatrix l r b t) (skewMatrix l r b t) ∧
       row1 m = mkVector (positiveZero (2 / (r - l))) 0
                         (positiveZero (2 / (r - l) * ((r + l) / 2))) 0 ∧
       row2 m = mkVector 0 (positiveZero (2 / (t - b)))
                         (positiveZero (2 / (t - b) * ((t + b) / 2))) 0 ∧
       row3 m = mkVector 0 0 1 0 ∧
       row4 m = mkVector 0 0 0 1)%float ∧
  (∀ l r b t : Qc, r ≠ l → t ≠ b →
     let product := timesMatrix (scaleMatrix l r b t) (skewMatrix l r b t) in
     (1 + 1) / (r - l) * ((r + l) / (1 + 1)) = (r + l) / (r - l) ∧
     (1 + 1) / (t - b) * ((t + b) / (1 + 1)) = (t + b) / (t - b) ∧
     row1 product = mkVector ((1 + 1) / (r - l)) 0 ((r + l) / (r - l)) 0 ∧
     row2 product = mkVector 0 ((1 + 1) / (t - b)) ((t + b) / (t - b)) 0 ∧
     row3 product = mkVector 0 0 1 0 ∧
     row4 product = mkVector 0 0 0 1)%Qc.
Proof.
  split_and!.
  - intros l r b t. split_and!; reflexivity.
  - intros l r b t Hsx Hsy Hkx Hky.
    exists (buildNumbers l r b t).
    split; [apply build_numbers|]. split; [reflexivity|].
    by apply buildNumbers_binary64_rows.
  - intros l r b t Hx Hy product.
    assert (product = closedForm l r b t) as -> by by apply buildNumbers_exact.
    split_and!; try reflexivity; by apply Qc_scale_skew_x.
Qed.

Lemma build_scale_times_skew_witness :
  (∃ m : Matrix float,
     build (JSNumber (-1)) (JSNumber 4) (JSNumber (-1)) (JSNumber 1) = Return m ∧
     m = timesMatrix (scaleMatrix (-1) 4 (-1) 1) (skewMatrix (-1) 4 (-1) 1) ∧
     row1 m = mkVector (positiveZero (2 / (4 - -1))) 0
                       (positiveZero (2 / (4 - -1) * ((4 + -1) / 2))) 0 ∧
     row2 m = mkVector 0 (positiveZero (2 / (1 - -1)))
                       (positiveZero (2 / (1 - -1) * ((1 + -1) / 2))) 0 ∧
     row3 m = mkVector 0 0 1 0 ∧
     row4 m = mkVector 0 0 0 1)%float ∧
  (let product := timesMatrix (scaleMatrix (-1) (1 + 1 + 1 + 1) (-1) 1)
                              (skewMatrix (-1) (1 + 1 + 1 + 1) (-1) 1) in
   (1 + 1) / (1 + 1 + 1 + 1 - -1) * ((1 + 1 + 1 + 1 + -1) / (1 + 1))
   = (1 + 1 + 1 + 1 + -1) / (1 + 1 + 1 + 1 - -1) ∧
   (1 + 1) / (1 - -1) * ((1 + -1) / (1 + 1)) = (1 + -1) / (1 - -1) ∧
   row1 product = mkVector ((1 + 1) / (1 + 1 + 1 + 1 - -1)) 0
                           ((1 + 1 + 1 + 1 + -1) / (1 + 1 + 1 + 1 - -1)) 0 ∧
   row2 product = mkVector 0 ((1 + 1) / (1 - -1)) ((1 + -1) / (1 - -1)) 0 ∧
   row3 product = mkVector 0 0 1 0 ∧
   row4 product = mkVector 0 0 0 1)%Qc.
Proof.
  split.
  - apply (proj1 (proj2 build_scale_times_skew) (-1) 4 (-1) 1)%float;
      reflexivity.
  - apply (proj2 (proj2 build_scale_times_skew)
             (-1)%Qc (1 + 1 + 1 + 1)%Qc (-1)%Qc 1%Qc).
    + discriminate.
    + discriminate.
Defined.

(** [NaN] has type number, so [build] returns a matrix for it. *)
Lemma build_accepts_nan :
  isFiniteNumber (JSNumber nan) = false ∧
  build (JSNumber nan) (JSNumber 1) (JSNumber (-1)) (JSNumber 1)
  = Return (buildNumbers nan 1 (-1) 1)%float ∧
  ¬ buildThrowsIffNotFinite (JSNumber nan) (JSNumber 1) (JSNumber (-1)) (JSNumber 1).
Proof.
  split_and!; [reflexivity|reflexivity|].
  intros [_ Hthrows].
  destruct Hthrows as [msg Hmsg]; [|discriminate Hmsg].
  by intros [[=] _].
Qed.

(** C6 (amended).  [build] throws, with the message of its guard, exactly
    when some bound is not of type number; for four numbers, finite or
    not, it returns a matrix; and [build("a", 1, -1, 1)] throws. *)
Theorem build_throws_iff_not_number :
  (∀ l r b t : JSValue,
     throws (build l r b t) ↔
     typeof l ≠ "number" ∨ typeof r ≠ "number" ∨
     typeof b ≠ "number" ∨ typeof t ≠ "number") ∧
  (∀ l r b t : JSValue,
     throws (build l r b t) →
     build l r b t = Throw "L, R, B, T, and near must be numerical") ∧
  (∀ l r b t : float,
     build (JSNumber l) (JSNumber r) (JSNumber b) (JSNumber t)
     = Return (buildNumbers l r b t)) ∧
  build (JSString "a") (JSNumber 1) (JSNumber (-1)) (JSNumber 1)
  = Throw "L, R, B, T, and near must be numerical".
Proof.
  split_and!; [| |reflexivity|reflexivity].
  - intros l r b t. split.
    + intros [msg Hmsg].
      destruct (build_guard l r b t)
        as [[Hnot _]|(l' & r' & b' & t' & -> & -> & -> & -> & Hret)];
        [done|]. rewrite Hret in Hmsg. discriminate Hmsg.
    + intros Hnot.
      destruct (build_guard l r b t)
        as [[_ Hthrow]|(l' & r' & b' & t' & -> & -> & -> & -> & _)].
      * by eexists.
      * simpl in Hnot. by destruct Hnot as [?|[?|[?|?]]].
  - intros l r b t [msg Hmsg].
    destruct (build_guard l r b t)
      as [[_ Hthrow]|(l' & r' & b' & t' & -> & -> & -> & -> & Hret)];
      [done|]. rewrite Hret in Hmsg. discriminate Hmsg.
Qed.

(** C7.  For the bounds [-1, 1, -1, 1], [build] returns the identity
    matrix: the skew terms are [0] and the scale terms are [1]. *)
Theorem build_identity_bounds :
  build (JSNumber (-1)) (JSNumber 1) (JSNumber (-1)) (JSNumber 1)
  = Return identityMatrix ∧
  skewMatrix (-1)%float 1%float (-1)%float 1%float = identityMatrix ∧
  scaleMatrix (-1)%float 1%float (-1)%float 1%float = identityMatrix ∧
  ((1 + -1) / 2 = 0 ∧ 2 / (1 - -1) = 1)%float.
Proof. split_and!; reflexivity. Qed.

(** C8.  For the bounds [0, 2, 0, 2], [build] returns a matrix whose
    third column is [(1, 1, 1, 0)], the scale matrix being the identity,
    and that matrix takes the vertex [(1, 1, -1)] to [(0, 0, -1)]. *)
Theorem build_asymmetric_skew :
  ∃ m : Matrix float,
    build (JSNumber 0) (JSNumber 2) (JSNumber 0) (JSNumber 2) = Return m ∧
    v3 m = mkVector 1%float 1%float 1%float 0%float ∧
    scaleMatrix 0%float 2%float 0%float 2%float = identityMatrix ∧
    timesVertex m (mkVertex 1 1 (-1))%float = (mkVertex 0 0 (-1))%float.
Proof. eexists. split_and!; reflexivity. Qed.

(** * Part IV: properties of the stage *)

(** ** Rules for heap computations *)

Section PostRules.
Context {A B : Type}.
Implicit Types (h : heap) (E : heap → Prop).

Lemma post_ret (a : A) h (Q : A → heap → Prop) E :
  Q a h → post (mret a) h Q E.
Proof. done. Qed.

Lemma post_bind (c : M A) (k : A → M B) h (Q : B → heap → Prop) E :
  post c h (λ a h', post (k a) h' Q E) E → post (c ≫= k) h Q E.
Proof.
  unfold post, mbind, M_bind, bind. destruct (c h) as [[a| |] h']; done.
Qed.

Lemma post_mono (c : M A) h (Q Q' : A → heap → Prop) E E' :
  post c h Q E →
  (∀ a h', Q a h' → Q' a h') → (∀ h', E h' → E' h') →
  post c h Q' E'.
Proof.
  unfold post. destruct (c h) as [[a| |] h']; eauto.
Qed.

Lemma post_conj (c : M A) h (Q Q' : A → heap → Prop) E E' :
  post c h Q E → post c h Q' E' →
  post c h (λ a h', Q a h' ∧ Q' a h') (λ h', E h' ∧ E' h').
Proof.
  unfold post. destruct (c h) as [[a| |] h']; eauto.
Qed.

Lemma post_returns (c : M A) h (Q : A → heap → Prop) :
  post c h Q never ↔ ∃ a h', c h = (Ok a, h') ∧ Q a h'.
Proof.
  unfold post, never. destruct (c h) as [[a| |] h']; split.
  - eauto.
  - by intros (? & ? & [= <- <-] & ?).
  - done.
  - by intros (? & ? & ? & ?).
  - done.
  - by intros (? & ? & ? & ?).
Qed.

Lemma post_typeError h (Q : A → heap → Prop) E :
  E h → post typeError h Q E.
Proof. done. Qed.

Lemma post_outOfFuel h (Q : A → heap → Prop) E :
  E h → post outOfFuel h Q E.
Proof. done. Qed.
End PostRules.

Section PrimitiveRules.
Implicit Types (h : heap) (E : heap → Prop) (l : loc).

Lemma post_alloc (o : Obj) h (Q : loc → heap → Prop) E :
  (∀ l, h !! l = None → Q l (<[l := o]> h)) → post (alloc o) h Q E.
Proof.
  intros HQ. unfold post, alloc. apply HQ.
  apply not_elem_of_dom, is_fresh.
Qed.

Lemma post_load l h (Q : Obj → heap → Prop) E :
  (∀ o, h !! l = Some o → Q o h) → (h !! l = None → E h) →
  post (load l) h Q E.
Proof.
  intros HQ HE. unfold post, load. destruct (h !! l); eauto.
Qed.

Lemma post_store l (o : Obj) h (Q : unit → heap → Prop) E :
  Q tt (<[l := o]> h) → post (store l o) h Q E.
Proof. done. Qed.

Lemma post_loadArray l h (Q : list Elem → heap → Prop) E :
  (∀ es, h !! l = Some (OArray es) → Q es h) →
  ((∀ es, h !! l ≠ Some (OArray es)) → E h) →
  post (loadArray l) h Q E.
Proof.
  intros HQ HE. unfold loadArray. apply post_bind, post_load.
  - intros [es|m|p] Hl; [by apply post_ret, HQ | |];
      apply post_typeError, HE; congruence.
  - intros Hl. apply HE. congruence.
Qed.

Lemma post_loadModel l h (Q : Model → heap → Prop) E :
  (∀ m, h !! l = Some (OModel m) → Q m h) →
  ((∀ m, h !! l ≠ Some (OModel m)) → E h) →
  post (loadModel l) h Q E.
Proof.
  intros HQ HE. unfold loadModel. apply post_bind, post_load.
  - intros [es|m|p] Hl; [|by apply post_ret, HQ|];
      apply post_typeError, HE; congruence.
  - intros Hl. apply HE. congruence.
Qed.

Lemma post_loadPosition l h (Q : Position → heap → Prop) E :
  (∀ p, h !! l = Some (OPosition p) → Q p h) →
  ((∀ p, h !! l ≠ Some (OPosition p)) → E h) →
  post (loadPosition l) h Q E.
Proof.
  intros HQ HE. unfold loadPosition. apply post_bind, post_load.
  - intros [es|m|p] Hl; [| |by apply post_ret, HQ];
      apply post_typeError, HE; congruence.
  - intros Hl. apply HE. congruence.
Qed.

Lemma post_asVertex (e : Elem) h (Q : Vertex float → heap → Prop) E :
  (∀ v, e = EVertex v → Q v h) → ((∀ v, e ≠ EVertex v) → E h) →
  post (asVertex e) h Q E.
Proof.
  intros HQ HE. destruct e as [v|l]; simpl.
  - by apply post_ret, HQ.
  - apply post_typeError, HE. congruence.
Qed.

Lemma post_asRef (e : Elem) h (Q : loc → heap → Prop) E :
  (∀ l, e = ERef l → Q l h) → ((∀ l, e ≠ ERef l) → E h) →
  post (asRef e) h Q E.
Proof.
  intros HQ HE. destruct e as [v|l]; simpl.
  - apply post_typeError, HE. congruence.
  - by apply post_ret, HQ.
Qed.

Lemma post_push l (e : Elem) h (Q : unit → heap → Prop) E :
  (∀ es, h !! l = Some (OArray es) → Q tt (<[l := OArray (es ++ [e])]> h)) →
  ((∀ es, h !! l ≠ Some (OArray es)) → E h) →
  post (push l e) h Q E.
Proof.
  intros HQ HE. unfold push. apply post_bind, post_loadArray; [|done].
  intros es Hl. by apply post_store, HQ.
Qed.

(** The loop rule for any outcome: an invariant of the body is an
    invariant of the loop. *)
Lemma post_forOfFrom_inv (I : heap → Prop) (arr : loc) (body : Elem → M unit) :
  (∀ e h, I h → post (body e) h (λ _ h', I h') I) →
  ∀ fuel i h, I h → post (forOfFrom fuel arr i body) h (λ _ h', I h') I.
Proof.
  intros Hbody fuel. induction fuel as [|fuel IH]; intros i h HI; simpl.
  - by apply post_outOfFuel.
  - apply post_bind, post_loadArray; [|done].
    intros es _. destruct (es !! i) as [e|]; [|by apply post_ret].
    apply post_bind. eapply post_mono; [by apply Hbody| |done].
    intros [] h' HI'. by apply IH.
Qed.

(** The loop rule for a loop that returns: the array holds [es] throughout,
    the body takes the invariant from index [j] to [j + 1], and the budget
    exceeds the number of elements left. *)
Lemma post_forOfFrom_total (I : nat → heap → Prop) (es : list Elem)
    (arr : loc) (body : Elem → M unit) E :
  (∀ j h, I j h → h !! arr = Some (OArray es)) →
  (∀ j e h, es !! j = Some e → I j h →
     post (body e) h (λ _ h', I (S j) h') E) →
  ∀ fuel i h, I i h → i ≤ length es → length es - i < fuel →
    post (forOfFrom fuel arr i body) h (λ _ h', I (length es) h') E.
Proof.
  intros Harr Hbody fuel.
  induction fuel as [|fuel IH]; intros i h HI Hi Hfuel; [lia|]. simpl.
  apply post_bind, post_loadArray.
  - intros es' Hes'. rewrite (Harr _ _ HI) in Hes'. simplify_eq.
    destruct (es' !! i) as [e|] eqn:He.
    + apply post_bind. eapply post_mono; [by eapply Hbody| |done].
      simpl. intros [] h' HI'. apply lookup_lt_Some in He.
      apply IH; [done|lia|lia].
    + apply post_ret. apply lookup_ge_None in He.
      by replace (length es') with i by lia.
  - intros Hno. by destruct (Hno es); apply (Harr i).
Qed.
End PrimitiveRules.

(** ** Rules for steps that are known to succeed *)

Section OkRules.
Implicit Types (h : heap) (E : heap → Prop) (l : loc).

Lemma post_loadArray_ok l es h (Q : list Elem → heap → Prop) E :
  h !! l = Some (OArray es) → Q es h → post (loadArray l) h Q E.
Proof.
  intros Hl HQ. apply post_loadArray.
  - intros es' Hl'. by simplify_eq.
  - intros Hno. by destruct (Hno es).
Qed.

Lemma post_loadModel_ok l m h (Q : Model → heap → Prop) E :
  h !! l = Some (OModel m) → Q m h → post (loadModel l) h Q E.
Proof.
  intros Hl HQ. apply post_loadModel.
  - intros m' Hl'. by simplify_eq.
  - intros Hno. by destruct (Hno m).
Qed.

Lemma post_loadPosition_ok l p h (Q : Position → heap → Prop) E :
  h !! l = Some (OPosition p) → Q p h → post (loadPosition l) h Q E.
Proof.
  intros Hl HQ. apply post_loadPosition.
  - intros p' Hl'. by simplify_eq.
  - intros Hno. by destruct (Hno p).
Qed.

Lemma post_push_ok l es (e : Elem) h (Q : unit → heap → Prop) E :
  h !! l = Some (OArray es) → Q tt (<[l := OArray (es ++ [e])]> h) →
  post (push l e) h Q E.
Proof.
  intros Hl HQ. apply post_push.
  - intros es' Hl'. by simplify_eq.
  - intros Hno. by destruct (Hno es).
Qed.
End OkRules.

(** ** Frame: no object of the heap at the call is written *)

Lemma framed_insert (h h' : heap) (l : loc) (o : Obj) :
  h !! l = None → framed h h' → framed h (<[l := o]> h').
Proof. intros Hl Hh. by apply insert_subseteq_r. Qed.

Lemma framed_fresh (h h' : heap) (l : loc) :
  framed h h' → h' !! l = None → h !! l = None.
Proof. intros Hh Hl. by eapply lookup_weaken_None. Qed.

Lemma framed_trans (h1 h2 h3 : heap) :
  framed h1 h2 → framed h2 h3 → framed h1 h3.
Proof. unfold framed. intros H12 H23. by etrans. Qed.

Lemma framed_refl (h : heap) : framed h h.
Proof. by unfold framed. Qed.

Lemma view2cameraModel_frame (fuel : nat) (model : loc) (camera : Camera) (h : heap) :
  post (view2cameraModel fuel model camera) h (framedNew h) (framed h).
Proof.
  unfold view2cameraModel.
  apply post_bind, post_alloc. intros nv Hnv.
  assert (framed h (<[nv := OArray []]> h)) as H1
    by by apply framed_insert, framed_refl.
  apply post_bind, post_loadModel; [|done]. intros m _.
  apply post_bind.
  eapply post_mono;
    [apply (post_forOfFrom_inv (framed h)) | |done]; [|done|].
  - intros e h' Hh'. apply post_bind, post_asVertex; [|done].
    intros v _. apply post_push; [|done].
    intros es _. by apply framed_insert.
  - intros [] h' Hh'. simpl.
    apply post_bind, post_loadModel; [|done]. intros m' _.
    apply post_alloc. intros r Hr. split.
    + apply framed_insert; [|done]. by eapply framed_fresh.
    + by eapply framed_fresh.
Qed.

Lemma view2cameraNestedModel_frame (fuel : nat) (model : loc) (camera : Camera) (h : heap) :
  post (view2cameraNestedModel fuel model camera) h (framedNew h) (framed h).
Proof.
  revert model h. induction fuel as [|fuel IH]; intros model h; simpl.
  { apply post_outOfFuel, framed_refl. }
  apply post_bind.
  eapply post_mono; [apply view2cameraModel_frame| |done].
  intros mod2 h1 [H1 _]. simpl.
  apply post_bind, post_alloc. intros nl Hnl.
  assert (h !! nl = None) as Hnl0 by by eapply framed_fresh.
  assert (framed h (<[nl := OArray []]> h1)) as H2 by by apply framed_insert.
  apply post_bind, post_loadModel; [|done]. intros m _.
  apply post_bind.
  eapply post_mono;
    [apply (post_forOfFrom_inv (framed h)) | |done]; [|done|].
  - intros e h' Hh'. apply post_bind, post_asRef; [|done].
    intros k _. apply post_bind.
    eapply post_mono; [apply IH| |].
    + intros r h'' [Hh'' _]. simpl. apply post_push.
      * intros es _. apply framed_insert; [done|]. by eapply framed_trans.
      * intros _. by eapply framed_trans.
    + intros h'' Hh''. by eapply framed_trans.
  - intros [] h' Hh'. simpl.
    apply post_bind, post_loadModel; [|done]. intros m2 _.
    apply post_alloc. intros r Hr. split.
    + apply framed_insert; [|done]. by eapply framed_fresh.
    + by eapply framed_fresh.
Qed.

Lemma view2cameraPosition_frame (fuel : nat) (position : loc) (camera : Camera) (h : heap) :
  post (view2cameraPosition fuel position camera) h (framedNew h) (framed h).
Proof.
  revert position h. induction fuel as [|fuel IH]; intros position h; simpl.
  { apply post_outOfFuel, framed_refl. }
  apply post_bind, post_loadPosition; [|intros _; apply framed_refl].
  intros p _.
  apply post_bind. unfold buildFromModelName.
  apply post_bind, post_alloc. intros np Hnp.
  apply post_alloc. intros pos2 Hpos2.
  assert (pos2 ≠ np) as Hne by (intros ->; by rewrite lookup_insert_eq in Hpos2).
  assert (h !! pos2 = None) as Hpos0 by by rewrite lookup_insert_ne in Hpos2.
  set (h2 := <[pos2 := OPosition (mkPosition (model p) (pos_name p) np)]>
               (<[np := OArray []]> h)).
  (* the invariant: the heap at the call is framed, and the new Position
     still owns its nested-position list *)
  set (I := λ h' : heap, framed h h' ∧
        ∃ m nm, h' !! pos2 = Some (OPosition (mkPosition m nm np))).
  assert (I h2) as HI2.
  { split.
    - by do 2 (apply framed_insert; [done|]); apply framed_refl.
    - do 2 eexists. apply lookup_insert_eq. }
  assert (∀ h', I h' → framed h h') as HIf by (by intros h' [? _]).
  apply post_bind, post_loadModel; [|intros _; by apply HIf]. intros pm _.
  apply post_bind.
  apply (post_mono _ _ (λ _ h', I h') _ I).
  - destruct (visible pm).
    + apply post_bind.
      eapply post_mono; [apply view2cameraNestedModel_frame| |].
      * intros r h3 [H3 _]. simpl.
        destruct HI2 as [Hf2 (m & nm & Hp2)].
        unfold setModel. apply post_bind, post_loadPosition.
        -- intros q Hq. apply post_store. split.
           ++ apply framed_insert; [done|]. by eapply framed_trans.
           ++ rewrite (lookup_weaken _ _ _ _ Hp2 H3) in Hq. simplify_eq.
              simpl. do 2 eexists. apply lookup_insert_eq.
        -- intros _. split; [by eapply framed_trans|].
           do 2 eexists. by eapply lookup_weaken.
      * intros h3 H3. destruct HI2 as [Hf2 (m & nm & Hp2)].
        split; [by eapply framed_trans|].
        do 2 eexists. by eapply lookup_weaken.
    + by apply post_ret.
  - intros [] h3 HI3. simpl.
    apply post_bind, post_loadPosition; [|intros _; by apply HIf].
    intros p' _. apply post_bind.
    eapply post_mono; [apply (post_forOfFrom_inv I) | |by apply HIf]; [|done|].
    + clear h3 HI3. intros e h' [Hf' (m & nm & Hp')].
      apply post_bind, post_asRef; [|by intros _; split; eauto].
      intros k _. apply post_bind.
      eapply post_mono; [apply IH| |].
      * intros r h'' [Hh'' _]. simpl.
        assert (I h'') as HI''.
        { split; [by eapply framed_trans|].
          do 2 eexists. by eapply lookup_weaken. }
        unfold addNestedPosition.
        apply post_bind, post_loadPosition; [|done].
        intros q Hq.
        rewrite (lookup_weaken _ _ _ _ Hp' Hh'') in Hq. simplify_eq. simpl.
        apply post_push; [|done].
        intros es _. split.
        -- apply framed_insert; [exact Hnp|]. by eapply framed_trans.
        -- do 2 eexists. rewrite lookup_insert_ne; [|done].
           by eapply lookup_weaken.
      * intros h'' Hh''. split; [by eapply framed_trans|].
        do 2 eexists. by eapply lookup_weaken.
    + intros [] h4 [Hf4 _]. simpl. by apply post_ret.
  - done.
Qed.

(** ** The representation is stable under heap growth *)

Lemma Forall2_Forall_impl {A B : Type} (P Q : A → B → Prop) (R : B → Prop)
    (l : list A) (k : list B) :
  Forall R k → Forall2 P l k → (∀ x y, R y → P x y → Q x y) → Forall2 Q l k.
Proof.
  intros HR HP HPQ. induction HP as [|x y l k Hxy HP IH]; [constructor|].
  apply Forall_cons in HR as [Hy HR]. constructor; auto.
Qed.

Lemma is_model_mono (h h' : heap) (l : loc) (t : ModelTree) :
  h ⊆ h' → is_model h l t → is_model h' l t.
Proof.
  intros Hsub. revert l.
  induction t as [vs prim col mat nested nm vis IH] using ModelTree_nested_ind.
  intros l Hm. inversion Hm as [? vl nl ls ? ? ? ? ? ? ? Hl Hvl Hp Hc Hnl Hkids];
    subst.
  econstructor.
  - by eapply lookup_weaken.
  - by eapply lookup_weaken.
  - destruct Hp as [o Ho]. exists o. by eapply lookup_weaken.
  - destruct Hc as [o Ho]. exists o. by eapply lookup_weaken.
  - by eapply lookup_weaken.
  - eapply Forall2_Forall_impl; [exact IH|exact Hkids|]. simpl. auto.
Qed.

Lemma is_position_mono (h h' : heap) (l : loc) (t : PositionTree) :
  h ⊆ h' → is_position h l t → is_position h' l t.
Proof.
  intros Hsub. revert l.
  induction t as [nm m nested IH] using PositionTree_nested_ind.
  intros l Hp. inversion Hp as [? ml nl ls ? ? ? Hl Hm Hnl Hkids]; subst.
  econstructor.
  - by eapply lookup_weaken.
  - by eapply is_model_mono.
  - by eapply lookup_weaken.
  - eapply Forall2_Forall_impl; [exact IH|exact Hkids|]. simpl. auto.
Qed.

(** ** [view2cameraModel] returns, and what it returns *)

Lemma view2cameraModel_returns (fuel : nat) (model : loc) (camera : Camera)
    (h : heap) (m : Model) (vs : list (Vertex float)) :
  h !! model = Some (OModel m) →
  h !! vertexList m = Some (OArray (EVertex <$> vs)) →
  length vs < fuel →
  post (view2cameraModel fuel model camera) h
       (λ r h', framedNew h r h' ∧ view2cameraModel_post camera h m vs r h') never.
Proof.
  intros Hm Hvs Hfuel.
  eapply post_mono; [apply post_conj; [apply view2cameraModel_frame|] | |];
    [|intros r h' HQ; exact HQ|by intros h' [_ ?]].
  unfold view2cameraModel.
  apply post_bind, post_alloc. intros nv Hnv.
  set (f := timesVertex (getNormalizeMatrix camera)).
  assert (nv ≠ model) as Hne1 by congruence.
  assert (nv ≠ vertexList m) as Hne2 by congruence.
  apply post_bind, (post_loadModel_ok _ m); [by rewrite lookup_insert_ne|].
  apply post_bind.
  set (I := λ (j : nat) (h' : heap), framed h h' ∧
         h' !! nv = Some (OArray (EVertex <$> map f (take j vs)))).
  eapply post_mono;
    [apply (post_forOfFrom_total I (EVertex <$> vs)) | |done].
  - intros j h' [Hf _]. by eapply lookup_weaken.
  - intros j e h' He [Hf Hnv']. rewrite list_lookup_fmap in He.
    destruct (vs !! j) as [v|] eqn:Hv; [|done]. simplify_eq/=.
    eapply (post_push_ok _ _ _ _ _ _ Hnv'). split.
    + by apply framed_insert.
    + rewrite lookup_insert_eq. do 2 f_equal.
      rewrite (take_S_r _ _ _ Hv), map_app, fmap_app. done.
  - split; [by apply framed_insert, framed_refl|].
    by rewrite lookup_insert_eq.
  - lia.
  - rewrite length_fmap. lia.
  - intros [] h' [Hf Hnv']. rewrite length_fmap, firstn_all in Hnv'. simpl.
    apply post_bind, (post_loadModel_ok _ m); [by eapply lookup_weaken|].
    apply post_alloc. intros r Hr.
    exists nv. split_and!; [done| |by rewrite lookup_insert_eq].
    rewrite lookup_insert_ne; [done|congruence].
Qed.

(** ** The objects a result is made of *)

Lemma footprint_lookup_Some (base h h' : heap) (i : loc) (o : Obj) :
  footprint base h h' !! i = Some o ↔
  base !! i = Some o ∨ (base !! i = None ∧ h' !! i = Some o ∧ h !! i = None).
Proof.
  unfold footprint. by rewrite lookup_union_Some_raw, lookup_difference_Some.
Qed.

Lemma footprint_lookup_base (base h h' : heap) (i : loc) (o : Obj) :
  base !! i = Some o → footprint base h h' !! i = Some o.
Proof. intros Hi. apply footprint_lookup_Some. by left. Qed.

Lemma footprint_lookup_new (base h h' : heap) (i : loc) (o : Obj) :
  base ⊆ h → h !! i = None → h' !! i = Some o →
  footprint base h h' !! i = Some o.
Proof.
  intros Hb Hi Hi'. apply footprint_lookup_Some. right.
  split_and!; [by eapply lookup_weaken_None|done|done].
Qed.

Lemma footprint_base (base h h' : heap) : base ⊆ footprint base h h'.
Proof. apply map_union_subseteq_l. Qed.

Lemma footprint_mono (base h1 h2 a b : heap) :
  (∀ i o, a !! i = Some o → h1 !! i = None →
          b !! i = Some o ∧ h2 !! i = None) →
  footprint base h1 a ⊆ footprint base h2 b.
Proof.
  intros Hab. apply map_subseteq_spec. intros i o.
  rewrite !footprint_lookup_Some. intros [?|(? & ? & ?)]; [by left|].
  right. split; [done|]. by apply Hab.
Qed.

Lemma footprint_subseteq (base h h' : heap) :
  base ⊆ h → h ⊆ h' → footprint base h h' ⊆ h'.
Proof.
  intros Hb Hh. apply map_subseteq_spec. intros i o.
  rewrite footprint_lookup_Some. intros [?|(? & ? & ?)]; [|done].
  eapply lookup_weaken; [|exact Hh]. by eapply lookup_weaken.
Qed.

Lemma modelFuel_nested (ts : list ModelTree) (j : nat) (t : ModelTree) :
  ts !! j = Some t → modelFuel t ≤ max_list (map modelFuel ts).
Proof.
  intros Hj. apply max_list_elem_of_le, list_elem_of_fmap.
  exists t. split; [done|]. by eapply list_elem_of_lookup_2.
Qed.

Lemma positionFuel_nested (ts : list PositionTree) (j : nat) (t : PositionTree) :
  ts !! j = Some t → positionFuel t ≤ max_list (map positionFuel ts).
Proof.
  intros Hj. apply max_list_elem_of_le, list_elem_of_fmap.
  exists t. split; [done|]. by eapply list_elem_of_lookup_2.
Qed.

(** ** [view2cameraNestedModel] returns the transformed tree *)

Lemma view2cameraNestedModel_returns (camera : Camera) (t : ModelTree) :
  ∀ (fuel : nat) (model : loc) (base h : heap),
    base ⊆ h → is_model base model t → modelFuel t ≤ fuel →
    post (view2cameraNestedModel fuel model camera) h
      (λ r h', framedNew h r h' ∧
         is_model (footprint base h h') r
           (transformModelTree (getNormalizeMatrix camera) t) ∧
         rebuiltModel h r h')
      never.
Proof.
  set (mat0 := getNormalizeMatrix camera).
  induction t as [vs prim col mat nested nm vis IH] using ModelTree_nested_ind.
  intros fuel model base h Hbase Hm Hfuel.
  inversion Hm as [? vl nl ls ? ? ? ? ? ? ? Hl Hvl Hp Hc Hnl Hkids]; subst.
  destruct fuel as [|fuel]; [simpl in Hfuel; lia|].
  cbn [modelFuel] in Hfuel. cbn [view2cameraNestedModel].
  set (m := mkModel vl prim col mat nl nm vis) in *.
  assert (h !! model = Some (OModel m)) as Hl' by by eapply lookup_weaken.
  (* the model itself *)
  apply post_bind.
  eapply post_mono;
    [apply (view2cameraModel_returns fuel model camera h m vs) | |done];
    [done|by eapply lookup_weaken|lia|].
  intros mod2 h1 [[Hf1 Hmod2new] (vl' & Hvl'new & Hvl' & Hmod2)]. simpl in Hmod2.
  fold mat0 in Hvl'.
  (* the new list of nested models *)
  apply post_bind, post_alloc. intros nn Hnn.
  assert (h !! nn = None) as Hnn0 by by eapply framed_fresh.
  apply post_bind, (post_loadModel_ok _ m).
  { rewrite lookup_insert_ne; [by eapply lookup_weaken|]. intros ->.
    by rewrite (lookup_weaken _ _ _ _ Hl' Hf1) in Hnn. }
  (* the loop over the nested models *)
  set (I := λ (j : nat) (h' : heap), framed h1 h' ∧
         ∃ rs, h' !! nn = Some (OArray (ERef <$> rs)) ∧
               Forall2 (is_model (footprint base h (delete nn h'))) rs
                       (map (transformModelTree mat0) (take j nested))).
  apply post_bind.
  eapply post_mono;
    [apply (post_forOfFrom_total I (ERef <$> ls)) | |done].
  - intros j h' [Hf' _]. simpl.
    eapply lookup_weaken; [|exact Hf']. eapply lookup_weaken; [|exact Hf1].
    by eapply lookup_weaken.
  - intros j e h' He [Hf' (rs & Hrs & Hdone)].
    rewrite list_lookup_fmap in He.
    destruct (ls !! j) as [k|] eqn:Hk; [|done]. simplify_eq/=.
    destruct (Forall2_lookup_l _ _ _ _ _ Hkids Hk) as (tk & Htk & Hmk).
    assert (framed h h') as Hhh' by by eapply framed_trans.
    apply post_bind, post_ret, post_bind.
    eapply post_mono;
      [apply (proj1 (Forall_lookup _ _) IH j tk Htk fuel k base h') | |done].
    + by etrans.
    + done.
    + pose proof (modelFuel_nested _ _ _ Htk). lia.
    + intros r h'' ([Hf'' Hrnew] & Hr & _). simpl.
      eapply (post_push_ok _ (ERef <$> rs)); [by eapply lookup_weaken|].
      split; [apply framed_insert; [done|]; by eapply framed_trans|].
      exists (rs ++ [r]). split; [by rewrite lookup_insert_eq, fmap_app|].
      rewrite (take_S_r _ _ _ Htk), map_app, delete_insert_eq.
      apply Forall2_app; [|constructor; [|constructor]].
      * eapply Forall2_impl; [exact Hdone|]. intros x y.
        apply is_model_mono, footprint_mono. intros i o Hi Hi0.
        apply lookup_delete_Some in Hi as [Hne Hi]. split; [|done].
        apply lookup_delete_Some. split; [done|]. by eapply lookup_weaken.
      * eapply is_model_mono; [|exact Hr]. apply footprint_mono.
        intros i o Hi Hi0. split; [|by eapply framed_fresh].
        apply lookup_delete_Some. split; [congruence|done].
  - split; [by apply framed_insert, framed_refl|].
    exists []. split; [by rewrite lookup_insert_eq|]. constructor.
  - lia.
  - rewrite length_fmap, (Forall2_length _ _ _ Hkids). lia.
  - intros [] h' [Hf' (rs & Hrs & Hdone)]. simpl.
    rewrite length_fmap, (Forall2_length _ _ _ Hkids), firstn_all in Hdone.
    (* the result *)
    apply post_bind, (post_loadModel_ok _ _ _ _ _ (lookup_weaken _ _ _ _ Hmod2 Hf')).
    simpl. apply post_alloc. intros r Hr.
    assert (framed h h') as Hhh' by by eapply framed_trans.
    assert (h !! r = None) as Hr0 by by eapply framed_fresh.
    split; [split; [by apply framed_insert|done]|].
    split; [|eexists; split_and!; [apply lookup_insert_eq|done|done]].
    destruct Hp as [op Hp], Hc as [oc Hc].
    apply (is_model_node _ r vl' nn rs).
    + apply footprint_lookup_new; [done|done|]. by rewrite lookup_insert_eq.
    + apply footprint_lookup_new; [done|done|].
      rewrite lookup_insert_ne; [by eapply lookup_weaken|].
      intros ->. by rewrite (lookup_weaken _ _ _ _ Hvl' Hf') in Hr.
    + exists op. by apply footprint_lookup_base.
    + exists oc. by apply footprint_lookup_base.
    + apply footprint_lookup_new; [done|done|].
      rewrite lookup_insert_ne; [done|congruence].
    + eapply Forall2_impl; [exact Hdone|]. intros x y.
      apply is_model_mono, footprint_mono. intros i o Hi Hi0.
      apply lookup_delete_Some in Hi as [Hne Hi]. split; [|done].
      rewrite lookup_insert_ne; [done|congruence].
Qed.

(** ** [view2cameraPosition] returns the transformed tree *)

Lemma lookup_delete2_Some (h : heap) (a b i : loc) (o : Obj) :
  delete a (delete b h) !! i = Some o ↔ i ≠ a ∧ i ≠ b ∧ h !! i = Some o.
Proof.
  rewrite !lookup_delete_Some. split.
  - by intros (? & ? & ?).
  - by intros (? & ? & ?).
Qed.

Lemma view2cameraPosition_returns (camera : Camera) (t : PositionTree) :
  ∀ (fuel : nat) (position : loc) (base h : heap),
    base ⊆ h → is_position base position t → positionFuel t ≤ fuel →
    post (view2cameraPosition fuel position camera) h
      (λ r h', framedNew h r h' ∧
         is_position (footprint base h h') r
           (transformPositionTree (getNormalizeMatrix camera) t) ∧
         rebuiltPosition h position (negb (modelVisible (positionModel t))) r h')
      never.
Proof.
  set (mat0 := getNormalizeMatrix camera).
  induction t as [nm m nested IH] using PositionTree_nested_ind.
  intros fuel position base h Hbase Hpos Hfuel.
  inversion Hpos as [? ml nl ls ? ? ? Hl Hm Hnl Hkids]; subst.
  destruct fuel as [|fuel]; [simpl in Hfuel; lia|].
  cbn [positionFuel] in Hfuel. cbn [view2cameraPosition transformPositionTree].
  assert (h !! position = Some (OPosition (mkPosition ml nm nl))) as Hl'
    by by eapply lookup_weaken.
  assert (∃ pm, base !! ml = Some (OModel pm) ∧ visible pm = modelVisible m)
    as (pm & Hpm & Hvis).
  { inversion Hm; subst. eexists. split; [done|]. done. }
  apply post_bind, (post_loadPosition_ok _ _ _ _ _ Hl'). simpl.
  (* the new Position *)
  apply post_bind. unfold buildFromModelName.
  apply post_bind, post_alloc. intros np Hnp.
  apply post_alloc. intros pos2 Hpos2.
  assert (pos2 ≠ np) as Hne by (intros ->; by rewrite lookup_insert_eq in Hpos2).
  assert (h !! pos2 = None) as Hpos0 by by rewrite lookup_insert_ne in Hpos2.
  set (h2 := <[pos2 := OPosition (mkPosition ml nm np)]> (<[np := OArray []]> h)).
  assert (framed h h2) as Hf2
    by by do 2 (apply framed_insert; [done|]); apply framed_refl.
  set (m' := if modelVisible m then transformModelTree mat0 m else m).
  set (I := λ (j : nat) (h' : heap), framed h h' ∧
         ∃ ml' rs,
           h' !! pos2 = Some (OPosition (mkPosition ml' nm np)) ∧
           (modelVisible m = false → ml' = ml) ∧
           h' !! np = Some (OArray (ERef <$> rs)) ∧
           is_model (footprint base h (delete pos2 (delete np h'))) ml' m' ∧
           Forall2 (is_position (footprint base h (delete pos2 (delete np h')))) rs
                   (map (transformPositionTree mat0) (take j nested))).
  (* the model of the new Position *)
  apply post_bind, (post_loadModel_ok _ pm).
  { eapply lookup_weaken; [|exact Hf2]. by eapply lookup_weaken. }
  apply post_bind. apply (post_mono _ _ (λ _ h', I 0 h') _ never); [| |done].
  - rewrite Hvis. subst m'. destruct (modelVisible m) eqn:Hv.
    + apply post_bind.
      eapply post_mono;
        [apply (view2cameraNestedModel_returns camera m fuel ml base h2) | |done];
        [by etrans|done|lia|].
      intros r h3 ([Hf3 Hrnew] & Hr & _). simpl. fold mat0 in Hr.
      unfold setModel.
      apply post_bind, (post_loadPosition_ok _ (mkPosition ml nm np)).
      { eapply lookup_weaken; [|exact Hf3]. apply lookup_insert_eq. }
      apply post_store. simpl. split.
      { apply framed_insert; [done|]. by eapply framed_trans. }
      exists r, []. split_and!.
      * by rewrite lookup_insert_eq.
      * done.
      * rewrite lookup_insert_ne; [|done].
        eapply lookup_weaken; [|exact Hf3]. unfold h2.
        rewrite lookup_insert_ne; [|done]. by rewrite lookup_insert_eq.
      * eapply is_model_mono; [|exact Hr]. apply footprint_mono.
        intros i o Hi Hi2. unfold h2 in Hi2.
        assert (i ≠ pos2) by (intros ->; by rewrite lookup_insert_eq in Hi2).
        rewrite lookup_insert_ne in Hi2 by done.
        assert (i ≠ np) by (intros ->; by rewrite lookup_insert_eq in Hi2).
        rewrite lookup_insert_ne in Hi2 by done. split; [|done].
        apply lookup_delete2_Some. split_and!; [done|done|].
        by rewrite lookup_insert_ne.
      * constructor.
    + apply post_ret. split; [done|]. exists ml, []. split_and!.
      * apply lookup_insert_eq.
      * done.
      * unfold h2. rewrite lookup_insert_ne; [|done]. by rewrite lookup_insert_eq.
      * eapply is_model_mono; [apply footprint_base|done].
      * constructor.
  - (* the loop over the nested positions *)
    intros [] h3 HI3. simpl.
    apply post_bind, (post_loadPosition_ok _ (mkPosition ml nm nl));
      [destruct HI3 as [Hf3 _]; by eapply lookup_weaken|]. simpl.
    apply post_bind.
    eapply post_mono;
      [apply (post_forOfFrom_total I (ERef <$> ls)) | |done].
    + intros j h' [Hf' _]. eapply lookup_weaken; [|exact Hf'].
      by eapply lookup_weaken.
    + clear h3 HI3.
      intros j e h' He [Hf' (ml' & rs & Hp2 & Hhid & Hrs & Hm' & Hdone)].
      rewrite list_lookup_fmap in He.
      destruct (ls !! j) as [k|] eqn:Hk; [|done]. simplify_eq/=.
      destruct (Forall2_lookup_l _ _ _ _ _ Hkids Hk) as (tk & Htk & Hpk).
      apply post_bind, post_ret, post_bind.
      eapply post_mono;
        [apply (proj1 (Forall_lookup _ _) IH j tk Htk fuel k base h') | |done].
      * by etrans.
      * done.
      * pose proof (positionFuel_nested _ _ _ Htk). lia.
      * intros r h'' ([Hf'' Hrnew] & Hr & _). simpl. unfold addNestedPosition.
        apply post_bind, (post_loadPosition_ok _ (mkPosition ml' nm np));
          [by eapply lookup_weaken|]. simpl.
        eapply (post_push_ok _ (ERef <$> rs)); [by eapply lookup_weaken|].
        split; [apply framed_insert; [exact Hnp|]; by eapply framed_trans|].
        exists ml', (rs ++ [r]). split_and!.
        -- rewrite lookup_insert_ne; [|done]. by eapply lookup_weaken.
        -- done.
        -- by rewrite lookup_insert_eq, fmap_app.
        -- eapply is_model_mono; [|exact Hm']. apply footprint_mono.
           intros i o Hi Hi0. rewrite delete_insert_eq.
           apply lookup_delete2_Some in Hi as (? & ? & Hi). split; [|done].
           apply lookup_delete2_Some. split_and!; [done|done|].
           by eapply lookup_weaken.
        -- rewrite (take_S_r _ _ _ Htk), map_app, delete_insert_eq.
           apply Forall2_app; [|constructor; [|constructor]].
           ++ eapply Forall2_impl; [exact Hdone|]. intros x y.
              apply is_position_mono, footprint_mono. intros i o Hi Hi0.
              apply lookup_delete2_Some in Hi as (? & ? & Hi). split; [|done].
              apply lookup_delete2_Some. split_and!; [done|done|].
              by eapply lookup_weaken.
           ++ eapply is_position_mono; [|exact Hr]. apply footprint_mono.
              intros i o Hi Hi0. split; [|by eapply framed_fresh].
              apply lookup_delete2_Some. split_and!; [congruence|congruence|done].
    + done.
    + lia.
    + rewrite length_fmap, (Forall2_length _ _ _ Hkids). lia.
    + intros [] h4 [Hf4 (ml' & rs & Hp2 & Hhid & Hrs & Hm' & Hdone)]. simpl.
      rewrite length_fmap, (Forall2_length _ _ _ Hkids), firstn_all in Hdone.
      apply post_ret. split; [done|]. split.
      2:{ do 2 eexists. split_and!; [exact Hl'|exact Hp2|done|exact Hnp|].
          simpl. intros Hh. apply Hhid. by destruct (modelVisible m). }
      apply (is_position_node _ pos2 ml' np rs).
      * by apply footprint_lookup_new.
      * eapply is_model_mono; [|exact Hm']. apply footprint_mono.
        intros i o Hi Hi0.
        by apply lookup_delete2_Some in Hi as (? & ? & Hi).
      * by apply footprint_lookup_new.
      * eapply Forall2_impl; [exact Hdone|]. intros x y.
        apply is_position_mono, footprint_mono. intros i o Hi Hi0.
        by apply lookup_delete2_Some in Hi as (? & ? & Hi).
Qed.

(** ** The heap determines the tree *)

#[export] Instance EVertex_inj : Inj (=) (=) EVertex.
Proof. by intros v w [= ->]. Qed.

#[export] Instance ERef_inj : Inj (=) (=) ERef.
Proof. by intros v w [= ->]. Qed.

Lemma Forall2_functional {A B : Type} (P : A → B → Prop) (l : list A) (k1 k2 : list B) :
  Forall (λ y, ∀ x y', P x y → P x y' → y = y') k1 →
  Forall2 P l k1 → Forall2 P l k2 → k1 = k2.
Proof.
  intros HF H1. revert k2.
  induction H1 as [|x y l k1 Hxy H1 IH]; intros k2 H2; inversion H2; subst; [done|].
  apply Forall_cons in HF as [Hy HF]. f_equal; eauto.
Qed.

Lemma is_model_functional (h : heap) (t1 : ModelTree) :
  ∀ (l : loc) (t2 : ModelTree), is_model h l t1 → is_model h l t2 → t1 = t2.
Proof.
  induction t1 as [vs prim col mat nested nm vis IH] using ModelTree_nested_ind.
  intros l t2 H1 H2.
  inversion H1 as [? vl nl ls ? ? ? ? ? ? ? Hl Hvl _ _ Hnl Hkids]; subst.
  inversion H2 as [? vl' nl' ls' ? ? ? ? ? ? ? Hl' Hvl' _ _ Hnl' Hkids']; subst.
  rewrite Hl in Hl'. injection Hl' as <- <- <- <- <- <- <-.
  rewrite Hvl in Hvl'. rewrite Hnl in Hnl'.
  injection Hvl' as Hvs%(inj _). injection Hnl' as Hls%(inj _). subst.
  f_equal. eapply Forall2_functional; [|exact Hkids|exact Hkids'].
  eapply Forall_impl; [exact IH|]. simpl. eauto.
Qed.

Lemma is_position_functional (h : heap) (t1 : PositionTree) :
  ∀ (l : loc) (t2 : PositionTree),
    is_position h l t1 → is_position h l t2 → t1 = t2.
Proof.
  induction t1 as [nm m nested IH] using PositionTree_nested_ind.
  intros l t2 H1 H2.
  inversion H1 as [? ml nl ls ? ? ? Hl Hm Hnl Hkids]; subst.
  inversion H2 as [? ml' nl' ls' ? ? ? Hl' Hm' Hnl' Hkids']; subst.
  rewrite Hl in Hl'. injection Hl' as <- <- <-.
  rewrite Hnl in Hnl'. injection Hnl' as Hls%(inj _). subst.
  f_equal; [by eapply is_model_functional|].
  eapply Forall2_functional; [|exact Hkids|exact Hkids'].
  eapply Forall_impl; [exact IH|]. simpl. eauto.
Qed.

(** ** What the transformation keeps, on trees *)

Section TreeFacts.
Variable mat : Matrix float.

Lemma transformModelTree_count (t : ModelTree) :
  modelCount (transformModelTree mat t) = modelCount t.
Proof.
  induction t as [vs prim col lmat nested nm vis IH] using ModelTree_nested_ind.
  simpl. rewrite map_map. do 2 f_equal. by apply map_ext_Forall.
Qed.

Lemma transformModelTree_names (t : ModelTree) :
  modelNames (transformModelTree mat t) = modelNames t.
Proof.
  induction t as [vs prim col lmat nested nm vis IH] using ModelTree_nested_ind.
  simpl. rewrite map_map. do 2 f_equal. by apply map_ext_Forall.
Qed.

Lemma transformModelTree_shape (t : ModelTree) :
  modelShape (transformModelTree mat t) = modelShape t.
Proof.
  induction t as [vs prim col lmat nested nm vis IH] using ModelTree_nested_ind.
  simpl. rewrite map_map. f_equal. by apply map_ext_Forall.
Qed.

Lemma transformModelTree_vertexLists (t : ModelTree) :
  modelVertexLists (transformModelTree mat t)
  = map (map (timesVertex mat)) (modelVertexLists t).
Proof.
  induction t as [vs prim col lmat nested nm vis IH] using ModelTree_nested_ind.
  simpl. f_equal. rewrite concat_map, !map_map. f_equal.
  by apply map_ext_Forall.
Qed.

Lemma transformModelTree_visible (t : ModelTree) :
  modelVisible (transformModelTree mat t) = modelVisible t.
Proof. by destruct t. Qed.

Lemma transformModelTree_nested (t : ModelTree) :
  modelNested (transformModelTree mat t)
  = map (transformModelTree mat) (modelNested t).
Proof. by destruct t. Qed.

Lemma transformPositionTree_count (t : PositionTree) :
  positionCount (transformPositionTree mat t) = positionCount t.
Proof.
  induction t as [nm m nested IH] using PositionTree_nested_ind.
  simpl. rewrite map_map. do 2 f_equal. by apply map_ext_Forall.
Qed.

Lemma transformPositionTree_names (t : PositionTree) :
  positionNames (transformPositionTree mat t) = positionNames t.
Proof.
  induction t as [nm m nested IH] using PositionTree_nested_ind.
  simpl. rewrite map_map. do 2 f_equal. by apply map_ext_Forall.
Qed.

Lemma transformPositionTree_shape (t : PositionTree) :
  positionShape (transformPositionTree mat t) = positionShape t.
Proof.
  induction t as [nm m nested IH] using PositionTree_nested_ind.
  simpl. rewrite map_map. f_equal.
  - destruct (modelVisible m); [apply transformModelTree_shape|done].
  - by apply map_ext_Forall.
Qed.
End TreeFacts.

Lemma transformPositionTree_modelNames (mat : Matrix float) (t : PositionTree) :
  positionModelNames (transformPositionTree mat t) = positionModelNames t.
Proof.
  induction t as [nm m nested IH] using PositionTree_nested_ind.
  simpl. rewrite map_map. f_equal.
  - destruct (modelVisible m); [apply transformModelTree_names|done].
  - f_equal. by apply map_ext_Forall.
Qed.

(** ** From [post] to results *)

Lemma post_frame_heap {A : Type} (c : M A) (h : heap) (Q : A → heap → Prop) :
  post c h (λ r h', h ⊆ h' ∧ Q r h') (framed h) → h ⊆ (c h).2.
Proof.
  unfold post, framed. destruct (c h) as [[a| |] h']; simpl; [by intros []|done|done].
Qed.

Lemma view2cameraNestedModel_total (camera : Camera) (fuel : nat) (model : loc)
    (h : heap) (t : ModelTree) :
  is_model h model t → modelFuel t ≤ fuel →
  ∃ r h', view2cameraNestedModel fuel model camera h = (Ok r, h') ∧
          h ⊆ h' ∧ h !! r = None ∧
          is_model h' r (transformModelTree (getNormalizeMatrix camera) t) ∧
          rebuiltModel h r h'.
Proof.
  intros Hm Hfuel. apply post_returns.
  eapply post_mono;
    [by apply (view2cameraNestedModel_returns camera t fuel model h h)| |done].
  intros r h' ([Hf Hr] & Ht & Hnew). split_and!; [done|done| |done].
  eapply is_model_mono; [|exact Ht]. by apply footprint_subseteq.
Qed.

Lemma view2cameraPosition_total (camera : Camera) (fuel : nat) (position : loc)
    (h : heap) (t : PositionTree) :
  is_position h position t → positionFuel t ≤ fuel →
  ∃ r h', view2cameraPosition fuel position camera h = (Ok r, h') ∧
          h ⊆ h' ∧ h !! r = None ∧
          is_position h' r (transformPositionTree (getNormalizeMatrix camera) t) ∧
          rebuiltPosition h position (negb (modelVisible (positionModel t))) r h'.
Proof.
  intros Hp Hfuel. apply post_returns.
  eapply post_mono;
    [by apply (view2cameraPosition_returns camera t fuel position h h)| |done].
  intros r h' ([Hf Hr] & Ht & Hnew). split_and!; [done|done| |done].
  eapply is_position_mono; [|exact Ht]. by apply footprint_subseteq.
Qed.

Lemma view2cameraModel_total (camera : Camera) (fuel : nat) (model : loc)
    (h : heap) (m : Model) (vs : list (Vertex float)) :
  h !! model = Some (OModel m) →
  h !! vertexList m = Some (OArray (EVertex <$> vs)) →
  length vs < fuel →
  ∃ r h' vl',
    view2cameraModel fuel model camera h = (Ok r, h') ∧
    h ⊆ h' ∧ h !! r = None ∧ h !! vl' = None ∧
    h' !! vl' = Some (OArray (EVertex <$> map (timesVertex (getNormalizeMatrix camera)) vs)) ∧
    h' !! r = Some (OModel (mkModel vl' (primitiveList m) (colorList m) (matrix m)
                                   (nestedModels m) (name m) (visible m))).
Proof.
  intros Hm Hvs Hfuel.
  pose proof (view2cameraModel_returns fuel model camera h m vs Hm Hvs Hfuel) as Hpost.
  apply post_returns in Hpost
    as (r & h' & Hrun & [Hf Hr] & vl' & Hvl0 & Hvl' & Hr').
  by exists r, h', vl'.
Qed.

(** ** The example scene is held in the example heap *)

Lemma exampleHeap_modelB : is_model exampleHeap 6 exampleModelB.
Proof.
  apply (is_model_node _ 6 4 5 []); try reflexivity; try (by eexists); constructor.
Qed.

Lemma exampleHeap_modelA : is_model exampleHeap 8 exampleModelA.
Proof.
  apply (is_model_node _ 8 1 7 [6%positive]); try reflexivity; try (by eexists).
  repeat constructor. apply exampleHeap_modelB.
Qed.

Lemma exampleHeap_modelC : is_model exampleHeap 12 exampleModelC.
Proof.
  apply (is_model_node _ 12 10 11 []); try reflexivity; try (by eexists); constructor.
Qed.

Lemma exampleHeap_child : is_position exampleHeap 13 exampleChild.
Proof.
  apply (is_position_node _ 13 12 9 []); try reflexivity;
    [apply exampleHeap_modelC|constructor].
Qed.

Lemma exampleHeap_top : is_position exampleHeap 15 exampleTop.
Proof.
  apply (is_position_node _ 15 8 14 [13%positive]); try reflexivity;
    [apply exampleHeap_modelA|].
  repeat constructor. apply exampleHeap_child.
Qed.

(** ** The stage run on the example scene *)

(** The hidden model ["A"] of ["top"] is passed on as it is (reference 8);
    the visible model ["C"] of ["child"] is rebuilt, its vertex
    [(1, 1, -1)] taken to [(0, 0, -1)]. *)
Example view2cameraPosition_example_run :
  let result := view2cameraPosition 6 15 exampleCamera exampleHeap in
  result.1 = Ok 17%positive ∧
  result.2 !! 17%positive = Some (OPosition (mkPosition 8 "top" 16)) ∧
  result.2 !! 16%positive = Some (OArray [ERef 19%positive]) ∧
  result.2 !! 19%positive = Some (OPosition (mkPosition 23 "child" 18)) ∧
  result.2 !! 23%positive = Some (OModel (mkModel 20 2 3 identityMatrix 22 "C" true)) ∧
  result.2 !! 20%positive = Some (OArray [EVertex (mkVertex 0 0 (-1))%float]) ∧
  result.2 !! 8%positive = exampleHeap !! 8%positive ∧
  result.2 !! 1%positive = Some (OArray [EVertex exampleVertex]).
Proof. split_and!; vm_compute; reflexivity. Qed.

(** Entered through [view2cameraNestedModel], the hidden model ["A"] and
    its hidden nested model ["B"] are both rebuilt with transformed
    vertices. *)
Example view2cameraNestedModel_example_run :
  let result := view2cameraNestedModel 5 8 exampleCamera exampleHeap in
  ∃ a b,
    result.1 = Ok a ∧
    result.2 !! a = Some (OModel (mkModel 16 2 3 identityMatrix 18 "A" false)) ∧
    result.2 !! 16%positive = Some (OArray [EVertex (mkVertex 0 0 (-1))%float]) ∧
    result.2 !! 18%positive = Some (OArray [ERef b]) ∧
    result.2 !! b = Some (OModel (mkModel 19 2 3 identityMatrix 21 "B" false)) ∧
    result.2 !! 19%positive
    = Some (OArray [EVertex (mkVertex 1 (-1) (-1))%float;
                    EVertex (mkVertex (-2) 0 (-2))%float]) ∧
    result.2 !! 21%positive = Some (OArray []).
Proof. exists 23%positive, 22%positive. split_and!; vm_compute; reflexivity. Qed.

(** With too small a budget the model of the run stops, and says so. *)
Example view2cameraPosition_example_out_of_fuel :
  (view2cameraPosition 3 15 exampleCamera exampleHeap).1 = OutOfFuel.
Proof. vm_compute. reflexivity. Qed.

(** ** The stage: main results *)

(** C2.  Given enough steps for the vertex loop, [view2cameraModel] returns
    a new Model object whose vertex list is a new array of the same length
    as the input's, holding at every index the normalize matrix applied to
    the input vertex at that index, and whose primitive list, colour list,
    local matrix, name and visible flag are those of the input. *)
Theorem view2cameraModel_maps_vertices (fuel : nat) (model : loc)
    (camera : Camera) (h : heap) (m : Model) (vs : list (Vertex float)) :
  h !! model = Some (OModel m) →
  h !! vertexList m = Some (OArray (EVertex <$> vs)) →
  length vs < fuel →
  ∃ r h' vl' vs',
    view2cameraModel fuel model camera h = (Ok r, h') ∧
    h !! r = None ∧ h !! vl' = None ∧
    h' !! r = Some (OModel (mkModel vl' (primitiveList m) (colorList m) (matrix m)
                                   (nestedModels m) (name m) (visible m))) ∧
    h' !! vl' = Some (OArray (EVertex <$> vs')) ∧
    length vs' = length vs ∧
    ∀ i v, vs !! i = Some v →
           vs' !! i = Some (timesVertex (getNormalizeMatrix camera) v).
Proof.
  intros Hm Hvs Hfuel.
  destruct (view2cameraModel_total camera fuel model h m vs Hm Hvs Hfuel)
    as (r & h' & vl' & Hrun & _ & Hr & Hvl0 & Hvl' & Hr').
  exists r, h', vl', (map (timesVertex (getNormalizeMatrix camera)) vs).
  split_and!; try done.
  - apply length_map.
  - intros i v Hi.
    change (map ?f vs) with (f <$> vs). by rewrite list_lookup_fmap, Hi.
Qed.

Lemma view2cameraModel_maps_vertices_witness :
  ∃ r h' vl' vs',
    view2cameraModel 2 12 exampleCamera exampleHeap = (Ok r, h') ∧
    exampleHeap !! r = None ∧ exampleHeap !! vl' = None ∧
    h' !! r = Some (OModel (mkModel vl' 2 3 identityMatrix 11 "C" true)) ∧
    h' !! vl' = Some (OArray (EVertex <$> vs')) ∧
    length vs' = 1 ∧
    ∀ i v, [exampleVertex] !! i = Some v →
           vs' !! i = Some (timesVertex (getNormalizeMatrix exampleCamera) v).
Proof.
  apply (view2cameraModel_maps_vertices 2 12 exampleCamera exampleHeap
           (mkModel 10 2 3 identityMatrix 11 "C" true) [exampleVertex]).
  - reflexivity.
  - reflexivity.
  - simpl. lia.
Defined.

(** C3.  For a Position whose model is hidden, [view2cameraPosition]
    returns a new Position that holds the input's model reference itself,
    so the same, untransformed vertex list, while its nested positions are
    the results of the same transformation applied to every nested
    position of the input, in order. *)
Theorem view2cameraPosition_hidden_model (fuel : nat) (position : loc)
    (camera : Camera) (h : heap) (nm : string) (m : ModelTree)
    (nested : list PositionTree) :
  is_position h position (PositionNode nm m nested) →
  modelVisible m = false →
  positionFuel (PositionNode nm m nested) ≤ fuel →
  ∃ r h' p p2,
    view2cameraPosition fuel position camera h = (Ok r, h') ∧
    h !! position = Some (OPosition p) ∧
    h' !! r = Some (OPosition p2) ∧
    model p2 = model p ∧
    h' !! model p = h !! model p ∧
    is_model h' (model p2) m ∧
    is_position h' r
      (PositionNode nm m
         (map (transformPositionTree (getNormalizeMatrix camera)) nested)).
Proof.
  intros Hp Hvis Hfuel.
  destruct (view2cameraPosition_total camera fuel position h _ Hp Hfuel)
    as (r & h' & Hrun & Hf & Hr & Ht & p & p2 & Hl & Hl2 & _ & _ & Hsame).
  simpl in Ht, Hsame. rewrite Hvis in Ht, Hsame.
  specialize (Hsame eq_refl).
  inversion Hp as [? ml nl ls ? ? ? Hl' Hm Hnl Hkids]; subst.
  rewrite Hl' in Hl. injection Hl as <-. simpl in Hsame.
  exists r, h', (mkPosition ml nm nl), p2. split_and!; try done.
  - simpl. inversion Hm; subst.
    erewrite (lookup_weaken h h'); [done|done|done].
  - rewrite Hsame. by eapply is_model_mono.
Qed.

Lemma view2cameraPosition_hidden_model_witness :
  ∃ r h' p p2,
    view2cameraPosition 6 15 exampleCamera exampleHeap = (Ok r, h') ∧
    exampleHeap !! 15%positive = Some (OPosition p) ∧
    h' !! r = Some (OPosition p2) ∧
    model p2 = model p ∧
    h' !! model p = exampleHeap !! model p ∧
    is_model h' (model p2) exampleModelA ∧
    is_position h' r
      (PositionNode "top" exampleModelA
         (map (transformPositionTree (getNormalizeMatrix exampleCamera))
              [exampleChild])).
Proof.
  apply (view2cameraPosition_hidden_model 6 15 exampleCamera exampleHeap
           "top" exampleModelA [exampleChild]).
  - exact exampleHeap_top.
  - reflexivity.
  - vm_compute. lia.
Defined.

(** C4.  For a Position tree held in the heap, [view2cameraPosition]
    returns a reference at which the heap holds exactly one tree, and that
    tree has the same number of positions, the same position
    names and model names in pre-order, and the same shape (the same number
    of nested entries at every node, in the position tree and in the model
    tree of every position); likewise [view2cameraNestedModel] for a Model
    tree. *)
Theorem view2camera_preserves_topology (camera : Camera) :
  (∀ (fuel : nat) (position : loc) (h : heap) (t : PositionTree),
     is_position h position t → positionFuel t ≤ fuel →
     ∃ r h' t',
       view2cameraPosition fuel position camera h = (Ok r, h') ∧
       is_position h' r t' ∧
       (∀ t'', is_position h' r t'' → t'' = t') ∧
       positionCount t' = positionCount t ∧
       positionNames t' = positionNames t ∧
       positionModelNames t' = positionModelNames t ∧
       positionShape t' = positionShape t) ∧
  (∀ (fuel : nat) (model : loc) (h : heap) (t : ModelTree),
     is_model h model t → modelFuel t ≤ fuel →
     ∃ r h' t',
       view2cameraNestedModel fuel model camera h = (Ok r, h') ∧
       is_model h' r t' ∧
       (∀ t'', is_model h' r t'' → t'' = t') ∧
       modelCount t' = modelCount t ∧
       modelNames t' = modelNames t ∧
       modelShape t' = modelShape t).
Proof.
  split.
  - intros fuel position h t Hp Hfuel.
    destruct (view2cameraPosition_total camera fuel position h t Hp Hfuel)
      as (r & h' & Hrun & _ & _ & Ht & _).
    exists r, h', (transformPositionTree (getNormalizeMatrix camera) t).
    split_and!; [done|done| | | | |].
    + intros t'' Ht''. symmetry. by eapply is_position_functional.
    + apply transformPositionTree_count.
    + apply transformPositionTree_names.
    + apply transformPositionTree_modelNames.
    + apply transformPositionTree_shape.
  - intros fuel model h t Hm Hfuel.
    destruct (view2cameraNestedModel_total camera fuel model h t Hm Hfuel)
      as (r & h' & Hrun & _ & _ & Ht & _).
    exists r, h', (transformModelTree (getNormalizeMatrix camera) t).
    split_and!; [done|done| | | |].
    + intros t'' Ht''. symmetry. by eapply is_model_functional.
    + apply transformModelTree_count.
    + apply transformModelTree_names.
    + apply transformModelTree_shape.
Qed.

Lemma view2camera_preserves_topology_witness :
  (∃ r h' t',
     view2cameraPosition 6 15 exampleCamera exampleHeap = (Ok r, h') ∧
     is_position h' r t' ∧
     (∀ t'', is_position h' r t'' → t'' = t') ∧
     positionCount t' = positionCount exampleTop ∧
     positionNames t' = positionNames exampleTop ∧
     positionModelNames t' = positionModelNames exampleTop ∧
     positionShape t' = positionShape exampleTop) ∧
  (∃ r h' t',
     view2cameraNestedModel 5 8 exampleCamera exampleHeap = (Ok r, h') ∧
     is_model h' r t' ∧
     (∀ t'', is_model h' r t'' → t'' = t') ∧
     modelCount t' = modelCount exampleModelA ∧
     modelNames t' = modelNames exampleModelA ∧
     modelShape t' = modelShape exampleModelA).
Proof.
  split.
  - apply (proj1 (view2camera_preserves_topology exampleCamera)
             6 15%positive exampleHeap exampleTop).
    + exact exampleHeap_top.
    + vm_compute. lia.
  - apply (proj2 (view2camera_preserves_topology exampleCamera)
             5 8%positive exampleHeap exampleModelA).
    + exact exampleHeap_modelA.
    + vm_compute. lia.
Defined.

(** C5.  [view2cameraNestedModel] asks for no visible flag: for a Model
    tree held in the heap, it returns a tree in which the vertex list of
    every model, the root's and every nested one's, is the input's
    transformed by the normalize matrix, whatever the flags are; the flags
    are passed on. *)
Theorem view2cameraNestedModel_ignores_visible (camera : Camera) (fuel : nat)
    (model : loc) (h : heap) (t : ModelTree) :
  is_model h model t → modelFuel t ≤ fuel →
  ∃ r h' t',
    view2cameraNestedModel fuel model camera h = (Ok r, h') ∧
    is_model h' r t' ∧
    modelVertexLists t'
    = map (map (timesVertex (getNormalizeMatrix camera))) (modelVertexLists t) ∧
    modelVisible t' = modelVisible t.
Proof.
  intros Hm Hfuel.
  destruct (view2cameraNestedModel_total camera fuel model h t Hm Hfuel)
    as (r & h' & Hrun & _ & _ & Ht & _).
  exists r, h', (transformModelTree (getNormalizeMatrix camera) t).
  split_and!; [done|done| |].
  - apply transformModelTree_vertexLists.
  - apply transformModelTree_visible.
Qed.

Lemma view2cameraNestedModel_ignores_visible_witness :
  modelVisible exampleModelA = false ∧
  Forall (λ t, modelVisible t = false) (modelNested exampleModelA) ∧
  ∃ r h' t',
    view2cameraNestedModel 5 8 exampleCamera exampleHeap = (Ok r, h') ∧
    is_model h' r t' ∧
    modelVertexLists t'
    = map (map (timesVertex (getNormalizeMatrix exampleCamera)))
          (modelVertexLists exampleModelA) ∧
    modelVisible t' = modelVisible exampleModelA.
Proof.
  split; [reflexivity|]. split; [by repeat constructor|].
  apply (view2cameraNestedModel_ignores_visible exampleCamera 5 8 exampleHeap
           exampleModelA).
  - exact exampleHeap_modelA.
  - vm_compute. lia.
Defined.

Lemma unchanged_subseteq (h h' : heap) : h ⊆ h' → unchanged h h'.
Proof.
  intros Hsub. split_and!.
  - intros x o Hx. by eapply lookup_weaken.
  - intros x t. by apply is_model_mono.
  - intros x t. by apply is_position_mono.
Qed.

(** C9.  Whatever the heap, the reference and the step budget, and
    however the call ends, every object that was in the heap when
    [view2cameraModel], [view2cameraPosition] or [view2cameraNestedModel]
    was called is the same object afterwards: same vertices, same lists,
    same fields, hence the same Model and Position trees. *)
Theorem view2camera_never_mutates (fuel : nat) (l : loc) (camera : Camera)
    (h : heap) :
  unchanged h (view2cameraModel fuel l camera h).2 ∧
  unchanged h (view2cameraPosition fuel l camera h).2 ∧
  unchanged h (view2cameraNestedModel fuel l camera h).2.
Proof.
  split_and!; apply unchanged_subseteq.
  - eapply post_frame_heap, view2cameraModel_frame.
  - eapply post_frame_heap, view2cameraPosition_frame.
  - eapply post_frame_heap, view2cameraNestedModel_frame.
Qed.

(** C10.  The Model returned by [view2cameraModel] holds the input's
    nested-model list itself: the same reference, to the same array, whose
    models are the same trees as before the call.  The Model returned by
    [view2cameraNestedModel] holds a nested-model list that was not in use
    before, with the nested models transformed. *)
Theorem view2cameraModel_shares_nestedModels (camera : Camera) :
  (∀ (fuel : nat) (model : loc) (h : heap) (m : Model) (vs : list (Vertex float)),
     h !! model = Some (OModel m) →
     h !! vertexList m = Some (OArray (EVertex <$> vs)) →
     length vs < fuel →
     ∃ r h' m',
       view2cameraModel fuel model camera h = (Ok r, h') ∧
       h' !! r = Some (OModel m') ∧
       nestedModels m' = nestedModels m ∧
       (∀ o, h !! nestedModels m = Some o → h' !! nestedModels m' = Some o) ∧
       (∀ x t, is_model h x t → is_model h' x t)) ∧
  (∀ (fuel : nat) (model : loc) (h : heap) (t : ModelTree),
     is_model h model t → modelFuel t ≤ fuel →
     ∃ r h' m',
       view2cameraNestedModel fuel model camera h = (Ok r, h') ∧
       h' !! r = Some (OModel m') ∧
       h !! nestedModels m' = None ∧
       is_model h' r (transformModelTree (getNormalizeMatrix camera) t)).
Proof.
  split.
  - intros fuel model h m vs Hm Hvs Hfuel.
    destruct (view2cameraModel_total camera fuel model h m vs Hm Hvs Hfuel)
      as (r & h' & vl' & Hrun & Hf & _ & _ & _ & Hr').
    eexists r, h', _. split_and!; [done|exact Hr'|done| |].
    + simpl. intros o Ho. by eapply lookup_weaken.
    + intros x t. by apply is_model_mono.
  - intros fuel model h t Hm Hfuel.
    destruct (view2cameraNestedModel_total camera fuel model h t Hm Hfuel)
      as (r & h' & Hrun & _ & _ & Ht & m' & Hr' & _ & Hnew).
    by exists r, h', m'.
Qed.

Lemma view2cameraModel_shares_nestedModels_witness :
  (∃ r h' m',
     view2cameraModel 2 8 exampleCamera exampleHeap = (Ok r, h') ∧
     h' !! r = Some (OModel m') ∧
     nestedModels m' = 7%positive ∧
     (∀ o, exampleHeap !! 7%positive = Some o → h' !! nestedModels m' = Some o) ∧
     (∀ x t, is_model exampleHeap x t → is_model h' x t)) ∧
  (∃ r h' m',
     view2cameraNestedModel 5 8 exampleCamera exampleHeap = (Ok r, h') ∧
     h' !! r = Some (OModel m') ∧
     exampleHeap !! nestedModels m' = None ∧
     is_model h' r
       (transformModelTree (getNormalizeMatrix exampleCamera) exampleModelA)).
Proof.
  split.
  - apply (proj1 (view2cameraModel_shares_nestedModels exampleCamera)
             2 8%positive exampleHeap
             (mkModel 1 2 3 identityMatrix 7 "A" false) [exampleVertex]).
    + reflexivity.
    + reflexivity.
    + simpl. lia.
  - apply (proj2 (view2cameraModel_shares_nestedModels exampleCamera)
             5 8%positive exampleHeap exampleModelA).
    + exact exampleHeap_modelA.
    + vm_compute. lia.
Defined.

(** * Part V: further properties of [build] *)

(** ** In exact arithmetic: the view volume is normalized *)

Section ExactViewVolume.
Local Open Scope Qc_scope.



End ExactViewVolume.

(** ** In binary64 arithmetic: degenerate and NaN bounds *)

Lemma SF64sub_diag (s : spec_float) :
  SFfiniteOrZero s = true → SF64sub s s = S754_zero false.
Proof.
  destruct s as [[]| | |sg m e]; try done. intros _.
  unfold SF64sub, SFsub. rewrite Z.sub_diag. reflexivity.
Qed.

(** [x - x] is [+0] for every finite [x]. *)
Lemma float_sub_diag (x : float) :
  PrimFloat.is_finite x = true → (x - x)%float = 0%float.
Proof.
  intros Hfin. rewrite <- (SF2Prim_Prim2SF (x - x)), sub_spec.
  rewrite SF64sub_diag by by apply Prim2SF_finite. reflexivity.
Qed.

Lemma float_sub_nan_r (x : float) : (x - nan)%float = nan.
Proof.
  rewrite <- (SF2Prim_Prim2SF (x - nan)), sub_spec.
  change (Prim2SF nan) with S754_nan. by destruct (Prim2SF x) as [| [] | |].
Qed.

Lemma float_sub_nan_l (x : float) : (nan - x)%float = nan.
Proof.
  rewrite <- (SF2Prim_Prim2SF (nan - x)), sub_spec.
  change (Prim2SF nan) with S754_nan. by destruct (Prim2SF x).
Qed.

Lemma float_add_nan_l (x : float) : (nan + x)%float = nan.
Proof.
  rewrite <- (SF2Prim_Prim2SF (nan + x)), add_spec.
  change (Prim2SF nan) with S754_nan. by destruct (Prim2SF x).
Qed.

Lemma float_add_nan_r (x : float) : (x + nan)%float = nan.
Proof.
  rewrite <- (SF2Prim_Prim2SF (x + nan)), add_spec.
  change (Prim2SF nan) with S754_nan. by destruct (Prim2SF x) as [| [] | |].
Qed.

(** X2.  Degenerate bounds are not refused.  For every finite [l] and all
    numbers [b], [t], [build(l, l, b, t)] returns a matrix whose first row
    starts with [Infinity] (the scale [2/(r-l)] with [r - l = 0]) and has
    [NaN] where the product has [Infinity * 0]; likewise the second row
    for [t = b]. *)
Theorem build_degenerate_bounds :
  (∀ l b t : float, PrimFloat.is_finite l = true →
     ∃ m, build (JSNumber l) (JSNumber l) (JSNumber b) (JSNumber t) = Return m ∧
          vec_x (v1 m) = infinity ∧ vec_x (v2 m) = nan ∧ vec_x (v4 m) = nan) ∧
  (∀ l r b : float, PrimFloat.is_finite b = true →
     ∃ m, build (JSNumber l) (JSNumber r) (JSNumber b) (JSNumber b) = Return m ∧
          vec_y (v2 m) = infinity ∧ vec_y (v1 m) = nan ∧ vec_y (v4 m) = nan).
Proof.
  split.
  - intros l b t Hl. eexists. split; [apply build_numbers|].
    unfold buildNumbers, timesMatrix, timesVector, buildFromColumns,
      skewMatrix, scaleMatrix, dot, row1; simpl.
    rewrite (float_sub_diag l Hl). split_and!; reflexivity.
  - intros l r b Hb. eexists. split; [apply build_numbers|].
    unfold buildNumbers, timesMatrix, timesVector, buildFromColumns,
      skewMatrix, scaleMatrix, dot, row2; simpl.
    rewrite (float_sub_diag b Hb). split_and!; reflexivity.
Qed.

Lemma build_degenerate_bounds_witness :
  (∃ m, build (JSNumber 3) (JSNumber 3) (JSNumber (-1)) (JSNumber 1) = Return m ∧
        vec_x (v1 m) = infinity ∧ vec_x (v2 m) = nan ∧ vec_x (v4 m) = nan) ∧
  (∃ m, build (JSNumber (-1)) (JSNumber 1) (JSNumber 0) (JSNumber 0) = Return m ∧
        vec_y (v2 m) = infinity ∧ vec_y (v1 m) = nan ∧ vec_y (v4 m) = nan).
Proof.
  split.
  - apply (proj1 build_degenerate_bounds 3 (-1) 1)%float. reflexivity.
  - apply (proj2 build_degenerate_bounds (-1) 1 0)%float. reflexivity.
Defined.

Ltac nan_rows :=
  unfold buildNumbers, timesMatrix, timesVector, buildFromColumns,
    skewMatrix, scaleMatrix, dot, row1, row2, row3, row4; simpl;
  rewrite ?float_sub_nan_r, ?float_sub_nan_l, ?float_add_nan_r, ?float_add_nan_l;
  change (2 / nan)%float with nan; change (nan / 2)%float with nan;
  change (nan * nan)%float with nan; change (nan * 1)%float with nan;
  change (nan * 0)%float with nan;
  rewrite ?float_add_nan_r, ?float_add_nan_l;
  f_equal; rewrite ?float_add_nan_r, ?float_add_nan_l; reflexivity.

(** X3.  A [NaN] bound is not refused either, whatever the other three
    numbers are: [build] returns a matrix, and a [NaN] left or right bound
    makes its whole first row [NaN], a [NaN] bottom or top bound its whole
    second row. *)
Theorem build_nan_bound (x y z : float) :
  (build (JSNumber nan) (JSNumber x) (JSNumber y) (JSNumber z)
   = Return (buildNumbers nan x y z) ∧
   row1 (buildNumbers nan x y z) = mkVector nan nan nan nan) ∧
  (build (JSNumber x) (JSNumber nan) (JSNumber y) (JSNumber z)
   = Return (buildNumbers x nan y z) ∧
   row1 (buildNumbers x nan y z) = mkVector nan nan nan nan) ∧
  (build (JSNumber x) (JSNumber y) (JSNumber nan) (JSNumber z)
   = Return (buildNumbers x y nan z) ∧
   row2 (buildNumbers x y nan z) = mkVector nan nan nan nan) ∧
  (build (JSNumber x) (JSNumber y) (JSNumber z) (JSNumber nan)
   = Return (buildNumbers x y z nan) ∧
   row2 (buildNumbers x y z nan) = mkVector nan nan nan nan).
Proof.
  split_and!; try reflexivity; nan_rows.
Qed.

(** * Part VI: further properties of the stage *)

(** ** Loops whose body may fail *)

Lemma post_forOfFrom_inv_err (I : heap → Prop) (E : heap → Prop)
    (arr : loc) (body : Elem → M unit) :
  (∀ h, I h → E h) →
  (∀ e h, I h → post (body e) h (λ _ h', I h') E) →
  ∀ fuel i h, I h → post (forOfFrom fuel arr i body) h (λ _ h', I h') E.
Proof.
  intros HE Hbody fuel. induction fuel as [|fuel IH]; intros i h HI; simpl.
  - by apply post_outOfFuel, HE.
  - apply post_bind, post_loadArray; [|by intros _; apply HE].
    intros es _. destruct (es !! i) as [e|]; [|by apply post_ret].
    apply post_bind. eapply post_mono; [by apply Hbody| |done].
    intros [] h' HI'. by apply IH.
Qed.

Lemma post_forOfFrom_elems (I : heap → Prop) (E : heap → Prop)
    (es : list Elem) (arr : loc) (body : Elem → M unit) :
  (∀ h, I h → E h) →
  (∀ h, I h → h !! arr = Some (OArray es)) →
  (∀ e h, e ∈ es → I h → post (body e) h (λ _ h', I h') E) →
  ∀ fuel i h, I h → post (forOfFrom fuel arr i body) h (λ _ h', I h') E.
Proof.
  intros HE Harr Hbody fuel. induction fuel as [|fuel IH]; intros i h HI; simpl.
  - by apply post_outOfFuel, HE.
  - apply post_bind, (post_loadArray_ok _ es); [by apply Harr|].
    destruct (es !! i) as [e|] eqn:He; [|by apply post_ret].
    apply post_bind. eapply post_mono; [apply Hbody| |done].
    + by eapply list_elem_of_lookup_2.
    + done.
    + intros [] h' HI'. by apply IH.
Qed.

(** ** The objects of a result are created by the call *)


Lemma createdModel_weaken (a a0 h1 h2 : heap) :
  (∀ x, a !! x = None → a0 !! x = None) →
  (∀ x o, a !! x = None → h1 !! x = Some o → h2 !! x = Some o) →
  ∀ l, createdModel a h1 l → createdModel a0 h2 l.
Proof.
  intros Ha Hh. fix IH 2. intros l Hl.
  destruct Hl as [l m vs ls H1 H2 H3 H4 H5 H6 Hkids].
  apply (createdModel_node _ _ l m vs ls); eauto.
  clear H6. induction Hkids as [|k ks Hk Hks IHks]; [constructor|].
  constructor; [by apply IH|exact IHks].
Qed.

Lemma createdPosition_weaken (shared a a0 h1 h2 : heap) :
  (∀ x, a !! x = None → a0 !! x = None) →
  (∀ x o, a !! x = None → h1 !! x = Some o → h2 !! x = Some o) →
  ∀ l, createdPosition shared a h1 l → createdPosition shared a0 h2 l.
Proof.
  intros Ha Hh. fix IH 2. intros l Hl.
  destruct Hl as [l p ls H1 H2 H3 H4 Hm Hkids].
  apply (createdPosition_node _ _ _ l p ls); eauto.
  - destruct Hm as [Hm|Hm]; [left|by right].
    by eapply createdModel_weaken.
  - clear H4. induction Hkids as [|k ks Hk Hks IHks]; [constructor|].
    constructor; [by apply IH|exact IHks].
Qed.

Lemma view2cameraModel_created (fuel : nat) (model : loc) (camera : Camera) (h : heap) :
  post (view2cameraModel fuel model camera) h
    (λ r h', framed h h' ∧ h !! r = None ∧
       ∃ m2 vs, h' !! r = Some (OModel m2) ∧ h !! vertexList m2 = None ∧
                h' !! vertexList m2 = Some (OArray (EVertex <$> vs)))
    anyway.
Proof.
  unfold view2cameraModel.
  apply post_bind, post_alloc. intros nv Hnv.
  apply post_bind, post_loadModel; [|done]. intros m _.
  set (I := λ h' : heap, framed h h' ∧
         ∃ vs, h' !! nv = Some (OArray (EVertex <$> vs))).
  apply post_bind.
  eapply post_mono; [apply (post_forOfFrom_inv_err I anyway)| |done]; [done| | |].
  - intros e h' [Hf (vs & Hvs)].
    apply post_bind, post_asVertex; [|done]. intros v _.
    apply post_push; [|done]. intros es Hes. split; [by apply framed_insert|].
    rewrite Hvs in Hes. injection Hes as <-.
    exists (vs ++ [timesVertex (getNormalizeMatrix camera) v]).
    by rewrite lookup_insert_eq, fmap_app.
  - split; [by apply framed_insert, framed_refl|].
    exists []. by rewrite lookup_insert_eq.
  - intros [] h' [Hf (vs & Hvs)]. simpl.
    apply post_bind, post_loadModel; [|done]. intros m' _.
    apply post_alloc. intros r Hr.
    split_and!; [by apply framed_insert; [eapply framed_fresh|]
                |by eapply framed_fresh|].
    eexists _, vs. split_and!; [apply lookup_insert_eq|done|].
    simpl. rewrite lookup_insert_ne; [done|congruence].
Qed.

Lemma view2cameraNestedModel_created (camera : Camera) (fuel : nat) :
  ∀ (model : loc) (h : heap),
    post (view2cameraNestedModel fuel model camera) h
      (λ r h', framed h h' ∧ createdModel h h' r) anyway.
Proof.
  induction fuel as [|fuel IH]; intros model h; simpl; [done|].
  apply post_bind.
  eapply post_mono; [apply view2cameraModel_created| |done].
  intros mod2 h1 (Hf1 & Hmod2new & m2 & vs & Hmod2 & Hvl0 & Hvl). simpl.
  apply post_bind, post_alloc. intros nn Hnn.
  assert (h !! nn = None) as Hnn0 by by eapply framed_fresh.
  apply post_bind, post_loadModel; [|done]. intros m _.
  set (I := λ h' : heap, framed h1 h' ∧
         ∃ rs, h' !! nn = Some (OArray (ERef <$> rs)) ∧
               Forall (createdModel h (delete nn h')) rs).
  apply post_bind.
  eapply post_mono; [apply (post_forOfFrom_inv_err I anyway)| |done]; [done| | |].
  - intros e h' [Hf' (rs & Hrs & Hdone)].
    apply post_bind, post_asRef; [|done]. intros k _.
    apply post_bind. eapply post_mono; [apply IH| |done].
    intros r h'' [Hf'' Hr]. simpl.
    apply post_push; [|done]. intros es Hes.
    rewrite (lookup_weaken _ _ _ _ Hrs Hf'') in Hes. injection Hes as <-.
    split; [apply framed_insert; [done|]; by eapply framed_trans|].
    exists (rs ++ [r]). split; [by rewrite lookup_insert_eq, fmap_app|].
    rewrite delete_insert_eq. apply Forall_app. split.
    + eapply Forall_impl; [exact Hdone|]. intros x.
      apply createdModel_weaken; [done|]. intros i o Hi0 Hi.
      apply lookup_delete_Some in Hi as [Hne Hi].
      apply lookup_delete_Some. split; [done|]. by eapply lookup_weaken.
    + constructor; [|constructor].
      eapply createdModel_weaken; [| |exact Hr].
      * intros x Hx. eapply framed_fresh; [|exact Hx]. by eapply framed_trans.
      * intros i o Hi0 Hi. apply lookup_delete_Some. split; [congruence|done].
  - split; [by apply framed_insert, framed_refl|].
    exists []. split; [by rewrite lookup_insert_eq|constructor].
  - intros [] h' [Hf' (rs & Hrs & Hdone)]. simpl.
    apply post_bind, post_loadModel; [|done]. intros m2' Hm2'.
    rewrite (lookup_weaken _ _ _ _ Hmod2 Hf') in Hm2'. injection Hm2' as <-.
    apply post_alloc. intros r Hr.
    assert (framed h h') as Hhh' by by eapply framed_trans.
    assert (h !! r = None) as Hr0 by by eapply framed_fresh.
    split; [by apply framed_insert|].
    apply (createdModel_node _ _ r
             (mkModel (vertexList m2) (primitiveList m2) (colorList m2)
                      (matrix m2) nn (name m2) (visible m2)) vs rs); simpl.
    + done.
    + apply lookup_insert_eq.
    + done.
    + rewrite lookup_insert_ne; [by eapply lookup_weaken|].
      intros Heq. pose proof (lookup_weaken _ _ _ _ Hvl Hf') as Hvl'.
      rewrite <- Heq in Hvl'. congruence.
    + done.
    + rewrite lookup_insert_ne; [done|congruence].
    + eapply Forall_impl; [exact Hdone|]. intros x.
      apply createdModel_weaken; [done|]. intros i o Hi0 Hi.
      apply lookup_delete_Some in Hi as [Hne Hi].
      rewrite lookup_insert_ne; [done|congruence].
Qed.

Lemma view2cameraPosition_created (camera : Camera) (t : PositionTree) :
  ∀ (fuel : nat) (position : loc) (base h : heap),
    base ⊆ h → is_position base position t →
    post (view2cameraPosition fuel position camera) h
      (λ r h', framed h h' ∧ h !! r = None ∧ createdPosition base h h' r)
      anyway.
Proof.
  induction t as [nm m nested IH] using PositionTree_nested_ind.
  intros fuel position base h Hbase Hpos.
  inversion Hpos as [? ml nl ls ? ? ? Hl Hm Hnl Hkids]; subst.
  destruct fuel as [|fuel]; [done|]. cbn [view2cameraPosition].
  assert (h !! position = Some (OPosition (mkPosition ml nm nl))) as Hl'
    by by eapply lookup_weaken.
  assert (∃ pm, base !! ml = Some (OModel pm)) as (pm & Hpm)
    by (inversion Hm; subst; by eexists).
  apply post_bind, (post_loadPosition_ok _ _ _ _ _ Hl'). simpl.
  apply post_bind. unfold buildFromModelName.
  apply post_bind, post_alloc. intros np Hnp.
  apply post_alloc. intros pos2 Hpos2.
  assert (pos2 ≠ np) as Hne by (intros ->; by rewrite lookup_insert_eq in Hpos2).
  assert (h !! pos2 = None) as Hpos0 by by rewrite lookup_insert_ne in Hpos2.
  set (h2 := <[pos2 := OPosition (mkPosition ml nm np)]> (<[np := OArray []]> h)).
  assert (framed h h2) as Hf2
    by by do 2 (apply framed_insert; [done|]); apply framed_refl.
  set (I := λ h' : heap, framed h h' ∧
         ∃ ml' rs,
           h' !! pos2 = Some (OPosition (mkPosition ml' nm np)) ∧
           h' !! np = Some (OArray (ERef <$> rs)) ∧
           (createdModel h (delete pos2 (delete np h')) ml' ∨
            ∃ pm, base !! ml' = Some (OModel pm) ∧ visible pm = false) ∧
           Forall (createdPosition base h (delete pos2 (delete np h'))) rs).
  apply post_bind, (post_loadModel_ok _ pm).
  { eapply lookup_weaken; [|exact Hf2]. by eapply lookup_weaken. }
  apply post_bind. apply (post_mono _ _ (λ _ h', I h') _ anyway); [| |done].
  - destruct (visible pm) eqn:Hv.
    + apply post_bind.
      eapply post_mono; [apply view2cameraNestedModel_created| |done].
      intros r h3 [Hf3 Hr]. simpl. unfold setModel.
      apply post_bind, (post_loadPosition_ok _ (mkPosition ml nm np)).
      { eapply lookup_weaken; [|exact Hf3]. apply lookup_insert_eq. }
      apply post_store. simpl. split.
      { apply framed_insert; [done|]. by eapply framed_trans. }
      exists r, []. split_and!.
      * by rewrite lookup_insert_eq.
      * rewrite lookup_insert_ne; [|done].
        eapply lookup_weaken; [|exact Hf3]. unfold h2.
        rewrite lookup_insert_ne; [|done]. by rewrite lookup_insert_eq.
      * left. eapply createdModel_weaken; [| |exact Hr].
        -- intros x Hx. by eapply framed_fresh.
        -- intros i o Hi2 Hi. unfold h2 in Hi2.
           assert (i ≠ pos2) by (intros ->; by rewrite lookup_insert_eq in Hi2).
           rewrite lookup_insert_ne in Hi2 by done.
           assert (i ≠ np) by (intros ->; by rewrite lookup_insert_eq in Hi2).
           apply lookup_delete2_Some. split_and!; [done|done|].
           by rewrite lookup_insert_ne.
      * constructor.
    + apply post_ret. split; [done|]. exists ml, []. split_and!.
      * apply lookup_insert_eq.
      * unfold h2. rewrite lookup_insert_ne; [|done]. by rewrite lookup_insert_eq.
      * right. by exists pm.
      * constructor.
  - intros [] h3 HI3. simpl.
    apply post_bind, (post_loadPosition_ok _ (mkPosition ml nm nl));
      [destruct HI3 as [Hf3 _]; by eapply lookup_weaken|]. simpl.
    apply post_bind.
    eapply post_mono;
      [apply (post_forOfFrom_elems I anyway (ERef <$> ls))| |done];
      [done| | |done|].
    + intros h' [Hf' _]. eapply lookup_weaken; [|exact Hf'].
      by eapply lookup_weaken.
    + clear h3 HI3.
      intros e h' He [Hf' (ml' & rs & Hp2 & Hrs & Hm' & Hdone)].
      apply list_elem_of_fmap in He as (k & -> & Hk).
      apply list_elem_of_lookup in Hk as [j Hk].
      destruct (Forall2_lookup_l _ _ _ _ _ Hkids Hk) as (tk & Htk & Hpk).
      apply post_bind, post_ret, post_bind.
      eapply post_mono;
        [apply (proj1 (Forall_lookup _ _) IH j tk Htk fuel k base h') | |done].
      * by etrans.
      * done.
      * intros r h'' (Hf'' & Hrnew & Hr). simpl. unfold addNestedPosition.
        apply post_bind, (post_loadPosition_ok _ (mkPosition ml' nm np));
          [by eapply lookup_weaken|]. simpl.
        eapply (post_push_ok _ (ERef <$> rs)); [by eapply lookup_weaken|].
        split; [apply framed_insert; [exact Hnp|]; by eapply framed_trans|].
        exists ml', (rs ++ [r]). rewrite delete_insert_eq. split_and!.
        -- rewrite lookup_insert_ne; [|done]. by eapply lookup_weaken.
        -- by rewrite lookup_insert_eq, fmap_app.
        -- destruct Hm' as [Hm'|Hm']; [left|by right].
           eapply createdModel_weaken; [done| |exact Hm'].
           intros i o Hi0 Hi.
           apply lookup_delete2_Some in Hi as (? & ? & Hi).
           apply lookup_delete2_Some. split_and!; [done|done|].
           by eapply lookup_weaken.
        -- apply Forall_app. split.
           ++ eapply Forall_impl; [exact Hdone|]. intros x.
              apply createdPosition_weaken; [done|]. intros i o Hi0 Hi.
              apply lookup_delete2_Some in Hi as (? & ? & Hi).
              apply lookup_delete2_Some. split_and!; [done|done|].
              by eapply lookup_weaken.
           ++ constructor; [|constructor].
              eapply createdPosition_weaken; [| |exact Hr].
              ** intros x Hx. by eapply framed_fresh.
              ** intros i o Hi0 Hi.
                 apply lookup_delete2_Some. split_and!; [congruence|congruence|done].
    + intros [] h4 [Hf4 (ml' & rs & Hp2 & Hrs & Hm' & Hdone)]. simpl.
      apply post_ret. split_and!; [done|done|].
      apply (createdPosition_node _ _ _ pos2 (mkPosition ml' nm np) rs); simpl;
        [done|done|exact Hnp|done| |].
      * destruct Hm' as [Hm'|Hm']; [left|by right].
        eapply createdModel_weaken; [done| |exact Hm'].
        intros i o Hi0 Hi. by apply lookup_delete2_Some in Hi as (? & ? & Hi).
      * eapply Forall_impl; [exact Hdone|]. intros x.
        apply createdPosition_weaken; [done|]. intros i o Hi0 Hi.
        by apply lookup_delete2_Some in Hi as (? & ? & Hi).
Qed.

Lemma transformPositionTree_vertexLists (mat : Matrix float) (t : PositionTree) :
  positionVertexLists (transformPositionTree mat t) = gatedVertexLists mat t.
Proof.
  induction t as [nm m nested IH] using PositionTree_nested_ind.
  simpl. rewrite map_map. f_equal.
  - destruct (modelVisible m); [apply transformModelTree_vertexLists|done].
  - f_equal. by apply map_ext_Forall.
Qed.

(** ** The second scene is held in its heap *)

Lemma exampleHeap2_modelH : is_model exampleHeap2 6 exampleModelH.
Proof.
  apply (is_model_node _ 6 4 5 []); try reflexivity; try (by eexists); constructor.
Qed.

Lemma exampleHeap2_modelV : is_model exampleHeap2 8 exampleModelV.
Proof.
  apply (is_model_node _ 8 1 7 [6%positive]); try reflexivity; try (by eexists).
  repeat constructor. apply exampleHeap2_modelH.
Qed.

Lemma exampleHeap2_positionP : is_position exampleHeap2 10 examplePositionP.
Proof.
  apply (is_position_node _ 10 8 9 []); try reflexivity;
    [apply exampleHeap2_modelV|constructor].
Qed.

(** ** The stage: further results *)

(** X4.  For a Position whose model is visible, [view2cameraPosition]
    returns a new Position (its reference was not in use in the heap at
    the call) that holds a Model created by the call (not in that heap
    either), whose tree is the input model's tree with the vertex list of
    every model in it, nested and hidden ones included, transformed by
    the normalize matrix; its nested positions are the transformed nested
    positions of the input, in order. *)
Theorem view2cameraPosition_visible_model (fuel : nat) (position : loc)
    (camera : Camera) (h : heap) (nm : string) (m : ModelTree)
    (nested : list PositionTree) :
  is_position h position (PositionNode nm m nested) →
  modelVisible m = true →
  positionFuel (PositionNode nm m nested) ≤ fuel →
  ∃ r h' p2,
    view2cameraPosition fuel position camera h = (Ok r, h') ∧
    h !! r = None ∧
    h' !! r = Some (OPosition p2) ∧
    h !! model p2 = None ∧
    is_model h' (model p2) (transformModelTree (getNormalizeMatrix camera) m) ∧
    modelVertexLists (transformModelTree (getNormalizeMatrix camera) m)
    = map (map (timesVertex (getNormalizeMatrix camera))) (modelVertexLists m) ∧
    is_position h' r
      (PositionNode nm (transformModelTree (getNormalizeMatrix camera) m)
         (map (transformPositionTree (getNormalizeMatrix camera)) nested)).
Proof.
  intros Hp Hvis Hfuel.
  destruct (view2cameraPosition_total camera fuel position h _ Hp Hfuel)
    as (r & h' & Hrun & Hf & Hr & Ht & _).
  simpl in Ht. rewrite Hvis in Ht.
  pose proof (view2cameraPosition_created camera _ fuel position h h
                (reflexivity h) Hp) as Hnew.
  unfold post in Hnew. rewrite Hrun in Hnew. destruct Hnew as (_ & _ & Hnew).
  inversion Ht as [? ml2 nl2 ls2 ? ? ? Hl2 Hm2 Hnl2 Hkids2]; subst.
  exists r, h', (mkPosition ml2 nm nl2). split_and!; try done.
  - destruct Hnew as [? p ls H1 H2 H3 H4 Hm Hkids].
    rewrite Hl2 in H2. injection H2 as <-. simpl in Hm.
    destruct Hm as [Hm|(pm & Hpm & Hhid)]; [by destruct Hm|].
    inversion Hm2 as [? ? ? ? ? ? ? ? ? ? ? Hml2]; subst.
    rewrite (lookup_weaken _ _ _ _ Hpm Hf) in Hml2. injection Hml2 as ->.
    simpl in Hhid. destruct m; simpl in *. congruence.
  - apply transformModelTree_vertexLists.
Qed.

Lemma view2cameraPosition_visible_model_witness :
  ∃ r h' p2,
    view2cameraPosition 5 10 exampleCamera exampleHeap2 = (Ok r, h') ∧
    exampleHeap2 !! r = None ∧
    h' !! r = Some (OPosition p2) ∧
    exampleHeap2 !! model p2 = None ∧
    is_model h' (model p2)
      (transformModelTree (getNormalizeMatrix exampleCamera) exampleModelV) ∧
    modelVertexLists
      (transformModelTree (getNormalizeMatrix exampleCamera) exampleModelV)
    = map (map (timesVertex (getNormalizeMatrix exampleCamera)))
          (modelVertexLists exampleModelV) ∧
    is_position h' r
      (PositionNode "P"
         (transformModelTree (getNormalizeMatrix exampleCamera) exampleModelV)
         (map (transformPositionTree (getNormalizeMatrix exampleCamera)) [])).
Proof.
  apply (view2cameraPosition_visible_model 5 10 exampleCamera exampleHeap2
           "P" exampleModelV []).
  - exact exampleHeap2_positionP.
  - reflexivity.
  - vm_compute. lia.
Defined.

(** X5.  Over a whole scene, [view2cameraPosition] transforms the vertex
    lists position by position: those of the model tree of a position are
    all transformed when the flag of the position's own model is set, and
    all left as they are when it is not; the flags of nested models play
    no part. *)
Theorem view2cameraPosition_gates_by_position_model (fuel : nat)
    (position : loc) (camera : Camera) (h : heap) (t : PositionTree) :
  is_position h position t → positionFuel t ≤ fuel →
  ∃ r h' t',
    view2cameraPosition fuel position camera h = (Ok r, h') ∧
    is_position h' r t' ∧
    positionVertexLists t' = gatedVertexLists (getNormalizeMatrix camera) t.
Proof.
  intros Hp Hfuel.
  destruct (view2cameraPosition_total camera fuel position h t Hp Hfuel)
    as (r & h' & Hrun & _ & _ & Ht & _).
  exists r, h', (transformPositionTree (getNormalizeMatrix camera) t).
  split_and!; [done|done|]. apply transformPositionTree_vertexLists.
Qed.

Lemma view2cameraPosition_gates_by_position_model_witness :
  (∃ r h' t',
     view2cameraPosition 6 15 exampleCamera exampleHeap = (Ok r, h') ∧
     is_position h' r t' ∧
     positionVertexLists t'
     = gatedVertexLists (getNormalizeMatrix exampleCamera) exampleTop) ∧
  gatedVertexLists (getNormalizeMatrix exampleCamera) exampleTop
  = [ [exampleVertex];
      [(mkVertex 2 0 (-1))%float; (mkVertex 0 2 (-2))%float];
      [(mkVertex 0 0 (-1))%float] ].
Proof.
  split; [|reflexivity].
  apply (view2cameraPosition_gates_by_position_model 6 15 exampleCamera
           exampleHeap exampleTop).
  - exact exampleHeap_top.
  - vm_compute. lia.
Defined.

(** X6.  Whenever [view2cameraNestedModel] returns, on any heap, the
    Model it returns, its vertex list and its nested-model list, and the
    same for every nested model of the result, are objects created by the
    call: none of them was in the heap before. *)
Theorem view2cameraNestedModel_result_is_new (fuel : nat) (model : loc)
    (camera : Camera) (h : heap) (r : loc) (h' : heap) :
  view2cameraNestedModel fuel model camera h = (Ok r, h') →
  createdModel h h' r.
Proof.
  intros Hrun.
  pose proof (view2cameraNestedModel_created camera fuel model h) as Hpost.
  unfold post in Hpost. rewrite Hrun in Hpost. by destruct Hpost.
Qed.

Lemma view2cameraNestedModel_result_is_new_witness :
  createdModel exampleHeap
    (view2cameraNestedModel 5 8 exampleCamera exampleHeap).2 23.
Proof.
  apply (view2cameraNestedModel_result_is_new 5 8 exampleCamera exampleHeap).
  vm_compute. reflexivity.
Defined.

(** X7.  When [view2cameraPosition] returns for a Position tree held in
    the heap, every Position of the result and every nested-position list
    is an object created by the call; the model of each Position of the
    result is either a tree of objects created by the call, or a hidden
    Model of the input heap, shared with the input. *)
Theorem view2cameraPosition_result_is_new (fuel : nat) (position : loc)
    (camera : Camera) (h : heap) (t : PositionTree) (r : loc) (h' : heap) :
  is_position h position t →
  view2cameraPosition fuel position camera h = (Ok r, h') →
  createdPosition h h h' r.
Proof.
  intros Hp Hrun.
  pose proof (view2cameraPosition_created camera t fuel position h h) as Hpost.
  unfold post in Hpost. rewrite Hrun in Hpost. by apply Hpost.
Qed.

Lemma view2cameraPosition_result_is_new_witness :
  createdPosition exampleHeap exampleHeap
    (view2cameraPosition 6 15 exampleCamera exampleHeap).2 17.
Proof.
  apply (view2cameraPosition_result_is_new 6 15 exampleCamera exampleHeap exampleTop).
  - exact exampleHeap_top.
  - vm_compute. reflexivity.
Defined.

(** ** A tree that nests itself *)






